(** * jank build and link orchestration: archive cache, toolchain resolver,
      precompiled-header flags and AOT link arguments

    The development embeds
    - [compiler+runtime/bin/ar-merge.ps1], the PowerShell wrapper around the
      archiver that records every archive's object files and later merges
      them into one archive, and
    - the C++ fragments of [jit/processor.cpp], [util/clang.cpp] and
      [aot/processor.cpp] quoted in the repository's note on AOT library
      linking,
    and states the properties the specification claims about them.

    Strings are Rocq [string]s (sequences of 8-bit characters); the cache
    directory is a finite map from file names to file contents. *)

From Stdlib Require Import ZArith String Ascii List Sorting.Sorted Permutation.
From stdpp Require Import base option list gmap strings sorting.

Local Open Scope string_scope.
Local Open Scope list_scope.
Local Open Scope stdpp_scope.

(** ** Strings *)

Module Str.

Definition LF : ascii := "010"%char.
Definition CR : ascii := "013"%char.

(** [std::string::starts_with], also the test behind a regex anchored by
    [^]. *)
Fixpoint starts_with (p s : string) : bool :=
  match p, s with
  | EmptyString, _ => true
  | String a p', String b s' => if Ascii.eqb a b then starts_with p' s' else false
  | String _ _, EmptyString => false
  end.

(** [s.find(p) != npos]. *)
Fixpoint contains (p s : string) : bool :=
  if starts_with p s then true
  else match s with
       | EmptyString => false
       | String _ s' => contains p s'
       end.

(** [s.substr(n)]: the characters from position [n] on. *)
Fixpoint substr_from (n : nat) (s : string) : string :=
  match n, s with
  | O, _ => s
  | S n', String _ s' => substr_from n' s'
  | S _, EmptyString => EmptyString
  end.

Definition is_empty (s : string) : bool :=
  match s with EmptyString => true | String _ _ => false end.

Fixpoint has_char (c : ascii) (s : string) : bool :=
  match s with
  | EmptyString => false
  | String a s' => if Ascii.eqb a c then true else has_char c s'
  end.

(** [-join sep] over a list of strings. *)
Fixpoint join (sep : string) (l : list string) : string :=
  match l with
  | [] => ""
  | [x] => x
  | x :: l' => x +:+ sep +:+ join sep l'
  end.

(** White space as [String.Trim()] sees it in the 7-bit range. *)
Definition is_space (c : ascii) : bool :=
  let n := nat_of_ascii c in
  ((9 <=? n)%nat && (n <=? 13)%nat) || (n =? 32)%nat.

Fixpoint trim_start (s : string) : string :=
  match s with
  | EmptyString => EmptyString
  | String c s' => if is_space c then trim_start s' else s
  end.

(** Drops trailing white space: a character is kept when it is not white
    space or when something is kept after it. *)
Fixpoint trim_end (s : string) : string :=
  match s with
  | EmptyString => EmptyString
  | String c s' =>
      let t := trim_end s' in
      if is_space c && is_empty t then EmptyString else String c t
  end.

Definition trim (s : string) : string := trim_end (trim_start s).

(** ASCII lower-casing, for PowerShell's case-insensitive comparisons. *)
Definition lower (c : ascii) : ascii :=
  let n := nat_of_ascii c in
  if (65 <=? n)%nat && (n <=? 90)%nat then ascii_of_nat (n + 32) else c.

Fixpoint lower_string (s : string) : string :=
  match s with
  | EmptyString => EmptyString
  | String c s' => String (lower c) (lower_string s')
  end.

(** Reading a text line by line (.NET [ReadLine], which [Get-Content]
    uses): a line ends at LF, CR or CR LF; the text after the last
    terminator is a line only when it is not empty. [cur] is the line read
    so far. *)
Fixpoint read_lines (cur : string) (s : string) : list string :=
  match s with
  | EmptyString => if is_empty cur then [] else [cur]
  | String c s' =>
      if Ascii.eqb c LF then cur :: read_lines "" s'
      else if Ascii.eqb c CR then
        match s' with
        | String c' s'' =>
            if Ascii.eqb c' LF then cur :: read_lines "" s''
            else cur :: read_lines "" s'
        | EmptyString => cur :: read_lines "" s'
        end
      else read_lines (cur +:+ String c "") s'
  end.

End Str.

(** ** PowerShell primitives used by ar-merge.ps1 *)

Module PS.

(** The range operator [a..b] counts up when [a <= b] and down otherwise,
    both ends included: [1..0] is [1, 0]. *)
Definition range (a b : Z) : list Z :=
  if (a <=? b)%Z
  then map (λ i, (a + Z.of_nat i)%Z) (seq 0 (Z.to_nat (b - a + 1)))
  else map (λ i, (a - Z.of_nat i)%Z) (seq 0 (Z.to_nat (a - b + 1))).

(** [$a[i]]: a negative index counts from the end; an index outside the
    array yields nothing ([$null]). *)
Definition index {A} (a : list A) (i : Z) : option A :=
  if (0 <=? i)%Z then a !! Z.to_nat i
  else if (0 <=? Z.of_nat (length a) + i)%Z
       then a !! Z.to_nat (Z.of_nat (length a) + i)
       else None.

(** [$a[i1, i2, ...]]: the elements at the given indices, in the order of
    the indices; indices outside the array contribute nothing. *)
Definition slice {A} (a : list A) (idx : list Z) : list A :=
  omap (index a) idx.

(** The idiom [$a[1..($a.Length - 1)]] of lines 15 and 58. *)
Definition rest {A} (a : list A) : list A :=
  slice a (range 1 (Z.of_nat (length a) - 1)).

(** A string converts to [$true] exactly when it is not empty
    ([Where-Object { $_ }]). *)
Definition truthy (s : string) : bool := negb (Str.is_empty s).

(** [switch] compares strings without regard to case; [$null] matches no
    string clause. *)
Definition switch_eq (value : option string) (clause : string) : bool :=
  match value with
  | Some v => String.eqb (Str.lower_string v) (Str.lower_string clause)
  | None => false
  end.

(** [$s -replace '[/\\]', '_']. *)
Fixpoint replace_slashes (s : string) : string :=
  match s with
  | EmptyString => EmptyString
  | String c s' =>
      String (if Ascii.eqb c "/"%char || Ascii.eqb c "\"%char then "_"%char else c)
             (replace_slashes s')
  end.

(** Removes one LF at the very end of the string, if there is one. *)
Fixpoint strip_final_LF (s : string) : string :=
  match s with
  | EmptyString => EmptyString
  | String c EmptyString => if Ascii.eqb c Str.LF then EmptyString else s
  | String c s' => String c (strip_final_LF s')
  end.

(** [$arg -match '^@(.+)$'], returning [$Matches[1]]: [.] is any character
    but LF, and [$] holds at the end of the string or before an LF that
    ends it. *)
Definition match_response_ref (arg : string) : option string :=
  match arg with
  | String c after =>
      if Ascii.eqb c "@"%char then
        let name := strip_final_LF after in
        if Str.is_empty name || Str.has_char Str.LF name then None else Some name
      else None
  | EmptyString => None
  end.

(** The line terminator [Out-File] puts after the text it writes. *)
Definition newline : string := String Str.CR (String Str.LF "").

(** What a variable holds: [$null], one string, or an array of strings. *)
Inductive value :=
| Null
| Scalar (s : string)
| Array (items : list string).

(** [$v = <pipeline>]: a pipeline that emits nothing leaves [$null], one
    that emits a single item leaves that item, and only two items or more
    make an array. *)
Definition assign (items : list string) : value :=
  match items with
  | [] => Null
  | [item] => Scalar item
  | _ => Array items
  end.

(** [$v = @(<pipeline>)]: an array, whatever the number of items. *)
Definition array_of (items : list string) : value := Array items.

(** [$v += $x] for a string [$x]: an array gets one more element, a string
    is continued, [$null] becomes the string. *)
Definition add (v : value) (x : string) : value :=
  match v with
  | Null => Scalar x
  | Scalar s => Scalar (s +:+ x)
  | Array items => Array (items ++ [x])
  end.

(** The characters of a string, each as a string of its own. *)
Fixpoint chars (s : string) : list string :=
  match s with
  | EmptyString => []
  | String c s' => String c "" :: chars s'
  end.

(** [@v] on a command line: the splat enumerates what the variable holds,
    an array by its elements and a string by its characters; [$null] adds
    no argument. *)
Definition splat (v : value) : list string :=
  match v with
  | Null => []
  | Scalar s => chars s
  | Array items => items
  end.

End PS.

(** ** The object archive cache: ar-merge.ps1 *)

Module ArMerge.

(** What the script reads and changes outside itself:
    - [cache]: the cache directory [$cache_dir], absent ([None]) or holding
      files (name to text);
    - [archives]: the archives on disk, each with the member arguments it
      was built from;
    - [ar_log]: the argument vector of every run of [$ar], latest last. *)
Record state := State {
  cache : option (gmap string string);
  archives : gmap string (list string);
  ar_log : list (list string)
}.

(** A script step either stops the script (a terminating error under
    [$ErrorActionPreference = "Stop"]) or yields a value and a new state. *)
Definition M (A : Type) : Type := state → option (A * state).

#[global] Instance M_ret : MRet M := λ A x st, Some (x, st).
#[global] Instance M_bind : MBind M := λ A B f m st,
  match m st with
  | Some (x, st') => f x st'
  | None => None
  end.

Definition run {A} (m : M A) (st : state) : option state :=
  match m st with
  | Some (_, st') => Some st'
  | None => None
  end.

Definition empty_dir : gmap string string := ∅.

(** [Test-Path $cache_dir]. *)
Definition Test_Path_cache_dir : M bool :=
  λ st, Some (bool_decide (is_Some (cache st)), st).

(** [New-Item -ItemType Directory -Path $cache_dir -Force]: creates the
    directory; one that exists is left as it is. *)
Definition New_Item_cache_dir : M unit :=
  λ st, Some ((), State (Some (default empty_dir (cache st))) (archives st) (ar_log st)).

(** [Remove-Item -Recurse -Force $cache_dir]. *)
Definition Remove_Item_cache_dir : M unit :=
  λ st, Some ((), State None (archives st) (ar_log st)).

(** [Test-Path], [Remove-Item -Force] and [Out-File] on a file of the
    cache directory. [Out-File] replaces the file's text by the text piped
    to it followed by a line terminator; it fails without the directory. *)
Definition Test_Path_cached (name : string) : M bool :=
  λ st, Some (match cache st with
              | Some d => bool_decide (is_Some (d !! name))
              | None => false
              end, st).

Definition Remove_Item_cached (name : string) : M unit :=
  λ st, Some ((), State (delete name <$> cache st) (archives st) (ar_log st)).

Definition Out_File (name text : string) : M unit :=
  λ st, match cache st with
        | Some d => Some ((), State (Some (<[name := text +:+ PS.newline]> d))
                                    (archives st) (ar_log st))
        | None => None
        end.

(** [Test-Path] and [Remove-Item -Force] on an archive path. *)
Definition Test_Path_archive (path : string) : M bool :=
  λ st, Some (bool_decide (is_Some (archives st !! path)), st).

Definition Remove_Item_archive (path : string) : M unit :=
  λ st, Some ((), State (cache st) (delete path (archives st)) (ar_log st)).

(** [& $ar ...]: the run is logged. The archiver itself is outside the
    script; of its operations the model knows [qc] (quick append, creating
    the archive silently when there is none), with the member arguments
    taken as they stand on the command line. *)
Definition ar_effect (argv : list string) (a : gmap string (list string))
  : gmap string (list string) :=
  match argv with
  | op :: out :: members =>
      if String.eqb op "qc"
      then <[out := default [] (a !! out) ++ members]> a
      else a
  | _ => a
  end.

Definition invoke_ar (argv : list string) : M unit :=
  λ st, Some ((), State (cache st) (ar_effect argv (archives st)) (ar_log st ++ [argv])).

Section Script.

(** [cmake_binary_dir] is the value CMake substitutes at line 4.
    [name_leb] is the order in which [Get-ChildItem] lists the files of
    a directory, as a comparison of file names. *)
Context (cmake_binary_dir : string) (name_leb : string → string → bool).

Definition merge_output : string :=
  cmake_binary_dir +:+ "/libjank-standalone-phase-1.a".
Definition merge_phase_2_output : string :=
  cmake_binary_dir +:+ "/libjank-standalone.a".
Definition core_o : string :=
  cmake_binary_dir +:+ "/core-libs/clojure/core.o".

Definition listed_before (x y : string * string) : Prop :=
  name_leb x.1 y.1 = true.

#[global] Instance listed_before_dec : RelDecision listed_before.
Proof. intros x y. unfold listed_before. apply _. Defined.

(** [Get-ChildItem -Path $cache_dir -File]: the files of the cache
    directory in listing order; an error when the directory is absent. *)
Definition Get_ChildItem_cache_dir : M (list (string * string)) :=
  λ st, match cache st with
        | Some d => Some (merge_sort listed_before (map_to_list d), st)
        | None => None
        end.

(** [Get-Content] of a file's text: its lines. *)
Definition Get_Content (text : string) : list string := Str.read_lines "" text.

(** The pipeline of lines 33 and 45 and the items it emits:
    [Get-ChildItem ... | ForEach-Object { Get-Content $_.FullName } | Where-Object { $_ }]. *)
Definition cached_object_files : M (list string) :=
  items ← Get_ChildItem_cache_dir;
  mret (List.filter PS.truthy (flat_map (λ item, Get_Content item.2) items)).

(** Lines 35-39 and 48-51: delete the old archive, create the new one. *)
Definition create_archive (output : string) (object_files : list string) : M unit :=
  present ← Test_Path_archive output;
  (if (present : bool) then Remove_Item_archive output else mret ());;
  invoke_ar ("qc" :: output :: object_files).

(** Lines 24-29. *)
Definition clean : M unit :=
  present ← Test_Path_cache_dir;
  (if (present : bool) then Remove_Item_cache_dir else mret ());;
  New_Item_cache_dir.

(** Lines 32-40. Line 33 assigns the pipeline as it is, so a single item
    is held as a string, and line 39 splats what the variable holds. *)
Definition merge : M unit :=
  items ← cached_object_files;
  let object_files := PS.assign items in
  create_archive merge_output (PS.splat object_files).

(** Lines 44-52. Line 45 wraps the pipeline in [@(...)], so line 46 adds an
    element to an array. *)
Definition merge_phase_2 : M unit :=
  items ← cached_object_files;
  let object_files := PS.array_of items in
  let object_files := PS.add object_files core_o in
  create_archive merge_phase_2_output (PS.splat object_files).

(** Lines 67-89 on a file system where every path that is there can be
    read: [files p] is the text of the file at [p], [None] when
    [Test-Path p] fails. The two loops append to [$expanded_args]. The loop
    on any file system is [expand_object_args_fs] below. *)
Definition expand_response_file (text : string) (expanded_args : list string)
  : list string :=
  fold_left (λ expanded_args line,
               let trimmed := Str.trim line in
               if negb (String.eqb trimmed "")
               then expanded_args ++ [trimmed]
               else expanded_args)
            (Get_Content text) expanded_args.

Definition expand_object_args (files : string → option string)
    (object_args : list string) : list string :=
  fold_left (λ expanded_args arg,
               match PS.match_response_ref arg with
               | Some rspFile =>
                   match files rspFile with
                   | Some text => expand_response_file text expanded_args
                   | None => expanded_args ++ [arg]
                   end
               | None => expanded_args ++ [arg]
               end)
            object_args [].

(** Line 59: [$base], the cache key of an output path; line 60: its list
    file, as a name inside the cache directory. *)
Definition sanitized_key (output : string) : string := PS.replace_slashes output.
Definition list_file (output : string) : string := sanitized_key output +:+ ".list".

(** Lines 56-99, the [default] clause, on a file system where every path
    that is there can be read ([default_mode_fs] below is the clause on any
    file system). [$null] is the empty string inside a string operation and
    no argument at all on a command line. *)
Definition default_mode (files : string → option string)
    (command : option string) (remaining_args : list string) : M unit :=
  let output := PS.index remaining_args 0 in
  let object_args := PS.rest remaining_args in
  let list_file := list_file (default "" output) in
  let expanded_args := expand_object_args files object_args in
  present ← Test_Path_cached list_file;
  (if (present : bool) then Remove_Item_cached list_file else mret ());;
  Out_File list_file (Str.join (String Str.LF "") expanded_args);;
  invoke_ar (option_list command ++ option_list output ++ object_args).

(** The script, lines 14-100, run on the arguments [args], on a file
    system where every path that is there can be read. *)
Definition ar_merge (files : string → option string) (args : list string) : M unit :=
  let command := PS.index args 0 in
  let remaining_args := PS.rest args in
  present ← Test_Path_cache_dir;
  (if negb present then New_Item_cache_dir else mret ());;
  if PS.switch_eq command "clean" then clean
  else if PS.switch_eq command "merge" then merge
  else if PS.switch_eq command "merge-phase-2" then merge_phase_2
  else default_mode files command remaining_args.

(** What is at a path outside the cache directory: a file with its text,
    or something [Test-Path] finds and [Get-Content] cannot read (a
    directory, a file without read access). *)
Inductive entry :=
| Text (text : string)
| Unreadable.





(** A build is a sequence of invocations, each with the file system it
    finds. *)
Fixpoint ar_merge_all (invocations : list ((string → option string) * list string))
    (st : state) : option state :=
  match invocations with
  | [] => Some st
  | (files, args) :: more =>
      match run (ar_merge files args) st with
      | Some st' => ar_merge_all more st'
      | None => None
      end
  end.

End Script.

(** The state of a build tree before the script has ever run. *)
Definition initial : state := State None ∅ [].

End ArMerge.

(** ** Toolchain resolver: util/clang.cpp and the flag filter of jit/processor.cpp *)

Module Toolchain.

(** What probing a path can find. *)
Inductive probe_result := Present | Absent | Denied.

(** What the process finds around it. [JANK_CLANG_PATH] and
    [JANK_JIT_FLAGS] are fixed when jank is built; [HOME] and [CXX] are
    [getenv] results, [None] for a null pointer. *)
Record env := Env {
  process_path : string;
  resource_dir : string;
  HOME : option string;
  CXX : option string;
  JANK_CLANG_PATH : string;
  JANK_JIT_FLAGS : string;
  fs : string → probe_result
}.

(** A check yields its verdict and the paths it probed, in order. *)
Definition probed (A : Type) : Type := A * list string.

(** [std::error_code ec; std::filesystem::exists(path, ec) && !ec]: one
    probe, true only for a path that is there and could be examined. *)
Definition exists_no_error (e : env) (path : string) : probed bool :=
  (match fs e path with Present => true | Absent | Denied => false end, [path]).

(** Line 176. *)
Definition is_app_bundle (e : env) : bool := Str.contains ".app/" (process_path e).

Definition under_home (e : env) (path : string) : bool :=
  match HOME e with
  | Some home => Str.starts_with home path
  | None => false
  end.

(** Lines 157-161, the test that guards [continue]: a path of another
    user. *)
Definition other_users_path (e : env) (path : string) : bool :=
  Str.starts_with "/Users/" path && negb (under_home e path).

(** Lines 179-188, the part of the [is_accessible_path] lambda that is
    quoted: [Some b] when it returns [b], [None] when control leaves the
    [if] statement. *)
Definition users_path_rule (e : env) (path : string) : option bool :=
  if Str.starts_with "/Users/" path then
    if is_app_bundle e then Some false
    else Some (under_home e path)
  else None.

(** Modelled from the spec: how the classification and the probe combine
    (the rest of the lambda and its call sites are not quoted). A path the
    rule rejects is not probed; any other path is probed and the probe
    decides. *)
Definition is_accessible_path (e : env) (path : string) : probed bool :=
  match users_path_rule e path with
  | Some false => (false, [])
  | Some true | None => exists_no_error e path
  end.

(** [std::filesystem::path::operator/] on a relative right operand. *)
Fixpoint ends_with_slash (s : string) : bool :=
  match s with
  | EmptyString => false
  | String c EmptyString => Ascii.eqb c "/"%char
  | String _ s' => ends_with_slash s'
  end.

Definition path_append (dir rel : string) : string :=
  if Str.is_empty dir || ends_with_slash dir then dir +:+ rel
  else dir +:+ "/" +:+ rel.

(** Lines 116-117. *)
Definition installed_path (e : env) : string :=
  path_append (resource_dir e) "bin/clang++".

(** Modelled from the spec: [find_clang] after its first step. The first
    step is lines 116-121, where the bundled compiler is probed as it is;
    the two fallbacks, which the note describes without quoting them, are
    the configured path and then the [CXX] override, each through
    [is_accessible_path], and nothing is found when both fail. *)
Definition find_clang (e : env) : probed (option string) :=
  let '(ok1, p1) := exists_no_error e (installed_path e) in
  if ok1 then (Some (installed_path e), p1)
  else
    let '(ok2, p2) := is_accessible_path e (JANK_CLANG_PATH e) in
    if ok2 then (Some (JANK_CLANG_PATH e), p1 ++ p2)
    else
      match CXX e with
      | Some cxx =>
          let '(ok3, p3) := is_accessible_path e cxx in
          if ok3 then (Some cxx, p1 ++ p2 ++ p3) else (None, p1 ++ p2 ++ p3)
      | None => (None, p1 ++ p2)
      end.

(** Successive [std::getline(flags, flag, delim)] calls until one fails:
    a flag ends at [delim] or at the end of the text, and a call that
    reaches the end without reading a character fails. *)
Fixpoint getlines (delim : ascii) (cur : string) (s : string) : list string :=
  match s with
  | EmptyString => if Str.is_empty cur then [] else [cur]
  | String c s' =>
      if Ascii.eqb c delim then cur :: getlines delim "" s'
      else getlines delim (cur +:+ String c "") s'
  end.

(** Lines 135-149, the loop over [JANK_JIT_FLAGS]; [check] is the test
    applied to the path of an include flag, [args] and the probed paths
    the loop's running state. [continue] leaves [args] as it is. *)
Definition filter_step (check : string → probed bool)
    (st : probed (list string)) (flag : string) : probed (list string) :=
  let '(args, seen) := st in
  if Str.starts_with "-I" flag then
    let path := Str.substr_from 2 flag in
    let '(ok, ps) := check path in
    if negb ok then (args, seen ++ ps)
    else (args ++ [flag], seen ++ ps)
  else (args ++ [flag], seen).

Definition filter_flags (check : string → probed bool) (flags : string)
    (args : list string) : probed (list string) :=
  fold_left (filter_step check) (getlines " "%char "" flags) (args, []).

(** The loop as the processor runs it. *)
Definition filter_effective_flags (e : env) (args : list string) : probed (list string) :=
  filter_flags (is_accessible_path e) (JANK_JIT_FLAGS e) args.

(** Lines 135-149 as they are quoted: the loop with the probe alone as the
    check of an include path. *)
Definition filter_existing_flags (e : env) (args : list string) : probed (list string) :=
  filter_flags (exists_no_error e) (JANK_JIT_FLAGS e) args.

End Toolchain.

(** ** Library names of the JIT: jit/processor.cpp *)

Module Jit.

(** Lines 38-42, the branch for [__APPLE__]: [util::format("lib{}.dylib", lib)]. *)
Definition default_shared_lib_name (lib : string) : string :=
  "lib" +:+ lib +:+ ".dylib".

(** The format the comment of line 41 says it replaced: ["{}.dylib"]. *)
Definition former_shared_lib_name (lib : string) : string :=
  lib +:+ ".dylib".

End Jit.

(** ** Loading the precompiled header: jit/processor.cpp *)

Module Pch.

(** [args.emplace_back(x)]. *)
Definition emplace_back (args : list string) (x : string) : list string := args ++ [x].

(** Lines 204-209, on the argument vector [args] built so far. *)
Definition load_flags (pch_path_str : string) (args : list string) : list string :=
  let args := emplace_back args "-include-pch" in
  let args := emplace_back args pch_path_str in
  let args := emplace_back args "-Xclang" in
  let args := emplace_back args "-fno-validate-pch" in
  args.

End Pch.

(** ** The AOT link step: aot/processor.cpp *)

Module Aot.

Definition push_back (compiler_args : list string) (x : string) : list string :=
  compiler_args ++ [x].

(** Lines 21-24: [util::format("-l{}", lib)] for every library. *)
Definition add_user_libs (libs : list string) (compiler_args : list string)
  : list string :=
  fold_left (λ compiler_args lib, push_back compiler_args ("-l" +:+ lib))
            libs compiler_args.

(** Lines 55-62; [macos_like] is [jtl::current_platform == jtl::platform::macos_like]. *)
Definition add_frameworks (macos_like : bool) (compiler_args : list string)
  : list string :=
  if macos_like then
    fold_left (λ compiler_args framework,
                 push_back (push_back compiler_args "-framework") framework)
              ["OpenGL"; "Cocoa"; "IOKit"; "CoreFoundation"] compiler_args
  else compiler_args.

(** The two steps in the order the note gives: user libraries, then the
    frameworks, on the arguments [compiler_args] composed before them. *)
Definition compose_link_args (macos_like : bool) (libs : list string)
    (compiler_args : list string) : list string :=
  add_frameworks macos_like (add_user_libs libs compiler_args).

End Aot.

(** ** Notions the properties are stated with *)

Module Spec.

Import ArMerge.

(** An invocation of the script: the file system it finds and its
    arguments. *)
Definition invocation : Type := (string → option string) * list string.

(** A command is passed through when it is none of the script's own. *)
Definition passes_through (command : string) : bool :=
  negb (PS.switch_eq (Some command) "clean")
  && negb (PS.switch_eq (Some command) "merge")
  && negb (PS.switch_eq (Some command) "merge-phase-2").

(** An object path that survives being written on a line of its own: not
    empty, no line break inside. *)
Definition object_path (p : string) : bool :=
  negb (Str.is_empty p) && negb (Str.has_char Str.CR p) && negb (Str.has_char Str.LF p).

(** A record invocation: archiver command, output path and at least one
    object argument. *)
Definition record_invocation (args : list string) : bool :=
  match args with
  | command :: output :: obj :: objs =>
      passes_through command && forallb object_path (obj :: objs)
  | _ => false
  end.

Definition target (args : list string) : option string := args !! 1%nat.

(** A string without a line break. *)
Definition one_line (s : string) : Prop :=
  Str.has_char Str.CR s = false ∧ Str.has_char Str.LF s = false.

(** What one object argument stands for at record time: the trimmed,
    non-blank lines of the response file it refers to when that file is
    there, and otherwise the argument itself. *)
Definition expansion (files : string → option string) (arg : string) : list string :=
  match PS.match_response_ref arg with
  | Some rspFile =>
      match files rspFile with
      | Some text =>
          List.filter (λ l, negb (Str.is_empty l)) (map Str.trim (Get_Content text))
      | None => [arg]
      end
  | None => [arg]
  end.

(** The object list an invocation records. *)
Definition object_list (inv : invocation) : list string :=
  flat_map (expansion inv.1) (drop 2 inv.2).

(** The object list most recently recorded for the target [t]. *)
Definition last_recorded (t : string) (invs : list invocation) : list string :=
  fold_left (λ found inv,
               if decide (target inv.2 = Some t) then object_list inv else found)
            invs [].

Definition targets (invs : list invocation) : list string :=
  omap (λ inv : invocation, target inv.2) invs.

(** The text of the record an invocation writes, and the cache directory
    after a sequence of record invocations. *)
Definition record_text (objects : list string) : string :=
  Str.join (String Str.LF "") objects +:+ PS.newline.

Definition cache_after (invs : list invocation) (d : gmap string string)
  : gmap string string :=
  fold_left (λ d inv,
               <[list_file (default "" (target inv.2)) := record_text (object_list inv)]> d)
            invs d.

(** The object files a merge reads from the cache directory [d]. *)
Definition objects_in (name_leb : string → string → bool) (d : gmap string string)
  : list string :=
  List.filter PS.truthy
    (flat_map (λ item : string * string, Get_Content item.2)
              (merge_sort (listed_before name_leb) (map_to_list d))).

(** The members [merge] hands the archiver for the cache directory [d]. *)
Definition merge_members (name_leb : string → string → bool) (d : gmap string string)
  : list string :=
  PS.splat (PS.assign (objects_in name_leb d)).



Section Order.
Context (name_leb : string → string → bool).

(** The order in which a merge visits targets: that of their list files
    in a directory listing. *)
Definition key_leb (k1 k2 : string) : bool :=
  name_leb (k1 +:+ ".list") (k2 +:+ ".list").

Definition target_order (t1 t2 : string) : Prop :=
  key_leb (sanitized_key t1) (sanitized_key t2) = true.

#[global] Instance target_order_dec : RelDecision target_order.
Proof. intros x y. unfold target_order. apply _. Defined.

(** The sorted order of the sanitized keys themselves, under the same
    comparison of names. *)
Definition key_order (t1 t2 : string) : Prop :=
  name_leb (sanitized_key t1) (sanitized_key t2) = true.

#[global] Instance key_order_dec : RelDecision key_order.
Proof. intros x y. unfold key_order. apply _. Defined.
End Order.

(** The first property of the archive cache for the record invocations
    [invs] and their targets [ts]: targets told apart by their output
    paths, visited in the sorted order of their sanitized keys. *)
Definition merge_lists_targets
    (cmake_binary_dir : string) (name_leb : string → string → bool)
    (invs : list invocation) (ts : list string) (files : string → option string) : Prop :=
  Forall (λ inv : invocation, record_invocation inv.2 = true) invs →
  NoDup ts → ts ⊆ targets invs → targets invs ⊆ ts →
  Sorted (key_order name_leb) ts →
  ∃ st', ar_merge_all cmake_binary_dir name_leb (invs ++ [(files, ["merge"])]) initial
           = Some st'
         ∧ archives st' !! merge_output cmake_binary_dir
           = Some (flat_map (λ t, last_recorded t invs) ts).

Definition merge_lists_every_distinct_path
    (cmake_binary_dir : string) (name_leb : string → string → bool) : Prop :=
  ∀ (invs : list invocation) (ts : list string) (files : string → option string),
    merge_lists_targets cmake_binary_dir name_leb invs ts files.

(** The second property: on the cache directory of [st], what
    [merge-phase-2] hands the archiver is what [merge] hands it followed by
    the one path of the core library. *)
Definition phase_2_is_merge_plus_core
    (cmake_binary_dir : string) (name_leb : string → string → bool) (st : state) : Prop :=
  ∀ (files1 files2 : string → option string) (st1 st2 : state)
    (members1 members2 : list string),
    run (ar_merge cmake_binary_dir name_leb files1 ["merge"]) st = Some st1 →
    run (ar_merge cmake_binary_dir name_leb files2 ["merge-phase-2"]) st = Some st2 →
    archives st1 !! merge_output cmake_binary_dir = Some members1 →
    archives st2 !! merge_phase_2_output cmake_binary_dir = Some members2 →
    members2 = members1 ++ [core_o cmake_binary_dir].

(** A response-file reference among the object arguments never shows up
    in the record. *)
Definition response_refs_never_recorded
    (cmake_binary_dir : string) (name_leb : string → string → bool) : Prop :=
  ∀ (files : string → option string) (command output arg : string)
    (objs : list string) (st st' : state) (d : gmap string string) (text : string),
    passes_through command = true →
    arg ∈ objs → is_Some (PS.match_response_ref arg) →
    run (ar_merge cmake_binary_dir name_leb files (command :: output :: objs)) st = Some st' →
    cache st' = Some d → d !! list_file output = Some text →
    arg ∉ Get_Content text.

(** The forwarded argument vector is the invocation's own. *)
Definition forwards_arguments_unchanged
    (cmake_binary_dir : string) (name_leb : string → string → bool) : Prop :=
  ∀ (files : string → option string) (command output : string)
    (objs : list string) (st st' : state),
    passes_through command = true →
    run (ar_merge cmake_binary_dir name_leb files (command :: output :: objs)) st = Some st' →
    ar_log st' = ar_log st ++ [command :: output :: objs].

Import Toolchain.

(** No candidate of [find_clang] under [/Users/] is probed in an
    application bundle. *)
Definition bundle_probes_no_users_candidate : Prop :=
  ∀ (e : env) (c : string),
    is_app_bundle e = true →
    c ∈ installed_path e :: JANK_CLANG_PATH e :: option_list (CXX e) →
    Str.starts_with "/Users/" c = true →
    c ∉ (find_clang e).2.

(** Splitting at every white-space character. *)
Fixpoint split_on_whitespace (cur : string) (s : string) : list string :=
  match s with
  | EmptyString => if Str.is_empty cur then [] else [cur]
  | String c s' =>
      if Str.is_space c then cur :: split_on_whitespace "" s'
      else split_on_whitespace (cur +:+ String c "") s'
  end.

(** Whether the loop keeps a flag. *)
Definition retained (check : string → probed bool) (flag : string) : bool :=
  if Str.starts_with "-I" flag then (check (Str.substr_from 2 flag)).1 else true.

(** A path written with backslashes for its slashes. *)
Fixpoint with_backslashes (s : string) : string :=
  match s with
  | EmptyString => EmptyString
  | String c s' =>
      String (if Ascii.eqb c "/"%char then "\"%char else c) (with_backslashes s')
  end.

(** The first and the last character of a string. *)
Definition first_char (s : string) : option ascii :=
  match s with
  | EmptyString => None
  | String c _ => Some c
  end.

Fixpoint last_char (s : string) : option ascii :=
  match s with
  | EmptyString => None
  | String c EmptyString => Some c
  | String _ s' => last_char s'
  end.

(** No white space at either end. *)
Definition unpadded (s : string) : Prop :=
  (∀ c, first_char s = Some c → Str.is_space c = false)
  ∧ (∀ c, last_char s = Some c → Str.is_space c = false).

(** The flag filter with the flags found by splitting on white space. *)
Definition filters_whitespace_separated_flags : Prop :=
  ∀ (e : env) (args : list string),
    (filter_effective_flags e args).1
    = args ++ List.filter (retained (is_accessible_path e))
                          (split_on_whitespace "" (JANK_JIT_FLAGS e)).

End Spec.

(** ** Concrete builds *)

Module Scenario.

Import ArMerge Spec Toolchain.

(** A build directory and a listing order (the order of character codes). *)
Definition build : string := "build".
Definition by_code : string → string → bool := String.leb.

(** A file system with one response file that names two objects. *)
Definition one_rsp : string → option string :=
  λ p, if String.eqb p "objs.rsp"
       then Some ("  gc.o" +:+ PS.newline +:+ PS.newline +:+ "rt.o " +:+ PS.newline)
       else None.
Definition no_files : string → option string := λ _, None.

(** Target [A] recorded with two objects, [B] with one, [A] again with one. *)
Definition records : list invocation :=
  [ (no_files, ["qc"; "A"; "a1.o"; "a2.o"]);
    (no_files, ["qc"; "B"; "b1.o"]);
    (no_files, ["qc"; "A"; "a1.o"]) ].

(** Two targets whose paths differ and whose keys do not. *)
Definition colliding : list invocation :=
  [ (no_files, ["qc"; "a/b"; "x.o"]);
    (no_files, ["qc"; "a_b"; "y1.o"; "y2.o"]) ].

(** The same with one object for the later target. *)
Definition colliding_one : list invocation :=
  [ (no_files, ["qc"; "a/b"; "x.o"]);
    (no_files, ["qc"; "a_b"; "y.o"]) ].

(** Two targets whose keys sort one way and whose list files the other:
    [a] comes before [a-b], and [a-b.list] before [a.list]. *)
Definition misordered : list invocation :=
  [ (no_files, ["qc"; "a"; "a1.o"; "a2.o"]);
    (no_files, ["qc"; "a-b"; "b1.o"]) ].

(** One target with one object. *)
Definition single : list invocation :=
  [ (no_files, ["qc"; "A"; "a.o"]) ].

(** A build tree whose cache holds one record with one object. *)
Definition one_object : state :=
  State (Some {[ "libx.a.list" := record_text ["main.o"] ]}) ∅ [].


(** A jank inside an application bundle kept under a user's home. *)
Definition bundled : env :=
  Env "/Users/me/Applications/Jank.app/Contents/MacOS/jank"
      "/Users/me/Applications/Jank.app/Contents/Resources"
      (Some "/Users/me") None
      "/Users/builder/llvm/bin/clang++" "-O2 -I/Users/builder/jank/include"
      (λ p, if String.eqb p "/Users/me/Applications/Jank.app/Contents/Resources/bin/clang++"
            then Present else Absent).

(** A jank run from a development tree by the user who built it. *)
Definition development : env :=
  Env "/Users/me/jank/build/jank" "/Users/me/jank/build"
      (Some "/Users/me") None
      "/Users/me/llvm/bin/clang++" "-O2 -I/Users/me/jank/include"
      (λ p, if String.eqb p "/Users/me/llvm/bin/clang++" then Present else Absent).

(** The same tree with two flags and a tab between them. *)
Definition tabbed_flags : string := "-O2" +:+ String "009"%char "-g".
Definition tabbed : env :=
  Env "/Users/me/jank/build/jank" "/Users/me/jank/build"
      (Some "/Users/me") None
      "/Users/me/llvm/bin/clang++" tabbed_flags
      (λ p, if String.eqb p "/Users/me/llvm/bin/clang++" then Present else Absent).

End Scenario.

(** * Properties *)

(** ** Strings and lines *)

Section StringFacts.

Import Spec.

Lemma append_cons (c : ascii) (s t : string) :
  String c s +:+ t = String c (s +:+ t).
Proof. reflexivity. Qed.

Lemma append_empty_l (s : string) : "" +:+ s = s.
Proof. reflexivity. Qed.

Lemma append_empty_r (s : string) : s +:+ "" = s.
Proof. induction s as [|c s IH]; [done | by rewrite append_cons, IH]. Qed.

Lemma append_assoc (a b c : string) : (a +:+ b) +:+ c = a +:+ (b +:+ c).
Proof. induction a as [|x a IH]; [done | by rewrite !append_cons, IH]. Qed.

Lemma append_char_assoc (a : string) (c : ascii) (b : string) :
  (a +:+ String c "") +:+ b = a +:+ String c b.
Proof. by rewrite append_assoc. Qed.

Lemma eqb_empty (s : string) : String.eqb s "" = Str.is_empty s.
Proof. by destruct s. Qed.

Lemma is_empty_true (s : string) : Str.is_empty s = true ↔ s = "".
Proof. destruct s; simpl; split; congruence. Qed.

Lemma has_char_app (c : ascii) (a b : string) :
  Str.has_char c (a +:+ b) = Str.has_char c a || Str.has_char c b.
Proof.
  induction a as [|x a IH]; [done |]. rewrite append_cons. simpl.
  destruct (Ascii.eqb x c); [done | exact IH].
Qed.

Lemma one_line_empty : one_line "".
Proof. by split. Qed.

Lemma one_line_snoc (s : string) (c : ascii) :
  one_line s → Ascii.eqb c Str.LF = false → Ascii.eqb c Str.CR = false →
  one_line (s +:+ String c "").
Proof.
  intros [Hr Hn] Hc1 Hc2. split; rewrite has_char_app; cbn [Str.has_char].
  - by rewrite Hr, Hc2.
  - by rewrite Hn, Hc1.
Qed.

Lemma one_line_cons (c : ascii) (s : string) :
  one_line (String c s) →
  Ascii.eqb c Str.LF = false ∧ Ascii.eqb c Str.CR = false ∧ one_line s.
Proof.
  intros [Hr Hn]. cbn [Str.has_char] in *.
  destruct (Ascii.eqb c Str.CR), (Ascii.eqb c Str.LF); try discriminate.
  by repeat split.
Qed.

Lemma read_lines_one_line (s cur rest : string) :
  one_line s → Str.read_lines cur (s +:+ rest) = Str.read_lines (cur +:+ s) rest.
Proof.
  revert cur. induction s as [|c s IH]; intros cur Hs.
  - by rewrite append_empty_r.
  - apply one_line_cons in Hs as (Hn & Hr & Hs).
    rewrite append_cons.
    cbn [Str.read_lines]. rewrite Hn, Hr, IH by done.
    by rewrite append_char_assoc.
Qed.

Lemma read_lines_newline (cur : string) : Str.read_lines cur PS.newline = [cur].
Proof. reflexivity. Qed.

Lemma read_lines_LF (cur rest : string) :
  Str.read_lines cur (String Str.LF rest) = cur :: Str.read_lines "" rest.
Proof. reflexivity. Qed.

(** Reading back what [-join] and [Out-File] wrote. *)
Lemma read_lines_join (l : list string) :
  Forall one_line l →
  Str.read_lines "" (Str.join (String Str.LF "") l +:+ PS.newline)
  = match l with [] => [""] | _ => l end.
Proof.
  induction l as [|x l IH]; intros Hl; [done |].
  apply Forall_cons in Hl as [Hx Hl].
  destruct l as [|y l].
  - simpl. by rewrite read_lines_one_line.
  - change (Str.join (String Str.LF "") (x :: y :: l))
      with (x +:+ String Str.LF "" +:+ Str.join (String Str.LF "") (y :: l)).
    rewrite !append_assoc, read_lines_one_line by done.
    rewrite append_cons, append_empty_l, append_empty_l.
    rewrite read_lines_LF. f_equal. by apply IH.
Qed.

Lemma read_lines_are_lines (s cur : string) :
  one_line cur → Forall one_line (Str.read_lines cur s).
Proof.
  revert cur. induction s as [|c s IH]; intros cur Hcur; cbn [Str.read_lines].
  - destruct (Str.is_empty cur); [apply Forall_nil_2 | by apply Forall_singleton].
  - destruct (Ascii.eqb c Str.LF) eqn:Hn.
    { constructor; [done | apply IH, one_line_empty]. }
    destruct (Ascii.eqb c Str.CR) eqn:Hr.
    + destruct s as [|c' s]; [constructor; [done | apply IH, one_line_empty] |].
      destruct (Ascii.eqb c' Str.LF) eqn:Hn'.
      * constructor; [done |].
        specialize (IH "" one_line_empty). cbn [Str.read_lines] in IH.
        rewrite Hn' in IH.
        by apply Forall_cons in IH as [_ IH].
      * constructor; [done | apply IH, one_line_empty].
    + apply IH. by apply one_line_snoc.
Qed.

Lemma has_char_trim_start (c : ascii) (s : string) :
  Str.has_char c s = false → Str.has_char c (Str.trim_start s) = false.
Proof.
  induction s as [|x s IH]; simpl; [done |]. intros H.
  destruct (Str.is_space x); [| done].
  destruct (Ascii.eqb x c); [done | by apply IH].
Qed.

Lemma has_char_trim_end (c : ascii) (s : string) :
  Str.has_char c s = false → Str.has_char c (Str.trim_end s) = false.
Proof.
  induction s as [|x s IH]; simpl; [done |]. intros H.
  destruct (Ascii.eqb x c) eqn:Hx; [done |].
  destruct (Str.is_space x && Str.is_empty (Str.trim_end s)); simpl; [done |].
  rewrite Hx. by apply IH.
Qed.

Lemma one_line_trim (s : string) : one_line s → one_line (Str.trim s).
Proof.
  intros [Hr Hn]. split; unfold Str.trim;
    by apply has_char_trim_end, has_char_trim_start.
Qed.

End StringFacts.

(** ** PowerShell slices *)

Section SliceFacts.

Context {A : Type}.

Lemma lookup_all (l : list A) (k n : nat) :
  n = (length l - k)%nat → omap (λ i : nat, l !! i) (seq k n) = drop k l.
Proof.
  revert k. induction n as [|n IH]; intros k Hn; simpl.
  - symmetry. apply drop_ge. lia.
  - destruct (l !! k) as [x|] eqn:Hx.
    + rewrite IH by lia. symmetry. by apply drop_S.
    + apply lookup_ge_None in Hx. lia.
Qed.

Lemma slice_upwards (a : list A) (k n : nat) :
  omap (PS.index a) (map (λ i : nat, (1 + Z.of_nat i)%Z) (seq k n))
  = omap (λ i : nat, a !! S i) (seq k n).
Proof.
  revert k. induction n as [|n IH]; intros k; simpl; [done |].
  rewrite IH. unfold PS.index at 1.
  destruct (Z.leb_spec 0 (1 + Z.of_nat k)) as [_|]; [| lia].
  by replace (Z.to_nat (1 + Z.of_nat k)) with (S k) by lia.
Qed.

Lemma index_0 (x : A) (l : list A) : PS.index (x :: l) 0 = Some x.
Proof. reflexivity. Qed.

(** With two elements or more the idiom drops the first one. *)
Lemma rest_cons_cons (x y : A) (l : list A) : PS.rest (x :: y :: l) = y :: l.
Proof.
  unfold PS.rest, PS.slice, PS.range.
  replace (Z.of_nat (length (x :: y :: l)) - 1)%Z with (Z.of_nat (S (length l)))
    by (simpl length; lia).
  destruct (Z.leb_spec 1 (Z.of_nat (S (length l)))) as [_|]; [| lia].
  replace (Z.to_nat (Z.of_nat (S (length l)) - 1 + 1)) with (length (y :: l))
    by (simpl length; lia).
  rewrite slice_upwards.
  change (λ i : nat, (x :: y :: l) !! S i) with (λ i : nat, (y :: l) !! i).
  by rewrite lookup_all by lia.
Qed.

(** With one element it yields that element: [1..0] is [1, 0]. *)
Lemma rest_singleton (x : A) : PS.rest [x] = [x].
Proof. reflexivity. Qed.

End SliceFacts.

(** ** The recording loop *)

Section ExpansionFacts.

Import ArMerge Spec.

Lemma expand_response_file_spec (text : string) (expanded_args : list string) :
  expand_response_file text expanded_args
  = expanded_args
    ++ List.filter (λ l, negb (Str.is_empty l)) (map Str.trim (Get_Content text)).
Proof.
  unfold expand_response_file. revert expanded_args.
  induction (Get_Content text) as [|line lines IH]; intros acc; simpl.
  - by rewrite app_nil_r.
  - rewrite IH, eqb_empty.
    destruct (Str.is_empty (Str.trim line)); simpl; [done |].
    by rewrite <- app_assoc.
Qed.

Lemma expand_object_args_from (files : string → option string)
    (object_args acc : list string) :
  fold_left (λ expanded_args arg,
               match PS.match_response_ref arg with
               | Some rspFile =>
                   match files rspFile with
                   | Some text => expand_response_file text expanded_args
                   | None => expanded_args ++ [arg]
                   end
               | None => expanded_args ++ [arg]
               end) object_args acc
  = acc ++ flat_map (expansion files) object_args.
Proof.
  revert acc. induction object_args as [|arg args IH]; intros acc; simpl.
  - by rewrite app_nil_r.
  - rewrite IH. unfold expansion at 2.
    destruct (PS.match_response_ref arg) as [rsp|]; [destruct (files rsp) |];
      rewrite ?expand_response_file_spec, <- ?app_assoc; done.
Qed.

(** The two loops of lines 67-89 compute the expansion of every object
    argument, in order. *)
Lemma expand_object_args_spec (files : string → option string) (object_args : list string) :
  expand_object_args files object_args = flat_map (expansion files) object_args.
Proof. unfold expand_object_args. by rewrite expand_object_args_from. Qed.

End ExpansionFacts.

(** ** Single runs of the script *)

Section RunFacts.

Import ArMerge Spec.
Context (cmake_binary_dir : string) (name_leb : string → string → bool).

Local Abbreviation ar_merge := (ar_merge cmake_binary_dir name_leb).
Local Abbreviation merge_output := (merge_output cmake_binary_dir).

Lemma passes_through_switch (command : string) :
  passes_through command = true →
  PS.switch_eq (Some command) "clean" = false
  ∧ PS.switch_eq (Some command) "merge" = false
  ∧ PS.switch_eq (Some command) "merge-phase-2" = false.
Proof.
  unfold passes_through. intros H.
  apply andb_prop in H as [H H3]. apply andb_prop in H as [H1 H2].
  apply negb_true_iff in H1, H2, H3. done.
Qed.

(** The state a passed-through invocation leaves. *)
Lemma run_default (files : string → option string) (command output : string)
    (objs : list string) (st : state) :
  passes_through command = true →
  run (ar_merge files (command :: output :: objs)) st
  = Some (State
            (Some (<[list_file output :=
                       Str.join (String Str.LF "")
                         (flat_map (expansion files) (PS.rest (output :: objs)))
                       +:+ PS.newline]>
                     (default empty_dir (cache st))))
            (ar_effect (command :: output :: PS.rest (output :: objs)) (archives st))
            (ar_log st ++ [command :: output :: PS.rest (output :: objs)])).
Proof.
  intros Hc. apply passes_through_switch in Hc as (H1 & H2 & H3).
  unfold ArMerge.ar_merge. rewrite index_0, rest_cons_cons, H1, H2, H3.
  unfold default_mode. rewrite index_0, expand_object_args_spec.
  unfold run, mbind, M_bind, Test_Path_cache_dir, New_Item_cache_dir, Test_Path_cached,
    Remove_Item_cached, Out_File, invoke_ar, mret, M_ret.
  destruct st as [[d|] a lg]; simpl.
  - destruct (bool_decide (is_Some (d !! list_file output))); simpl; [| done].
    by rewrite insert_delete_eq.
  - done.
Qed.

End RunFacts.

Section MergeRunFacts.

Import ArMerge Spec.
Context (cmake_binary_dir : string) (name_leb : string → string → bool).

Local Abbreviation ar_merge := (ar_merge cmake_binary_dir name_leb).
Local Abbreviation merge_output := (merge_output cmake_binary_dir).
Local Abbreviation merge_phase_2_output := (merge_phase_2_output cmake_binary_dir).
Local Abbreviation core_o := (core_o cmake_binary_dir).

Lemma run_clean (files : string → option string) (st : state) :
  run (ar_merge files ["clean"]) st = Some (State (Some ∅) (archives st) (ar_log st)).
Proof. by destruct st as [[d|] a lg]. Qed.

(** Creating an archive replaces what was at its path. *)
Lemma create_archive_fresh (output : string) (object_files : list string) (st : state) :
  create_archive output object_files st
  = Some ((), State (cache st) (<[output := object_files]> (archives st))
                    (ar_log st ++ ["qc" :: output :: object_files])).
Proof.
  unfold create_archive, mbind, M_bind, Test_Path_archive, Remove_Item_archive,
    invoke_ar, mret, M_ret.
  destruct st as [c a lg]; simpl.
  destruct (a !! output) as [old|] eqn:Hold; simpl.
  - by rewrite lookup_delete_eq, insert_delete_eq.
  - by rewrite Hold.
Qed.

Lemma run_merge (files : string → option string) (st : state) :
  let d := default empty_dir (cache st) in
  run (ar_merge files ["merge"]) st
  = Some (State (Some d) (<[merge_output := merge_members name_leb d]> (archives st))
                (ar_log st ++ ["qc" :: merge_output :: merge_members name_leb d])).
Proof.
  unfold ArMerge.ar_merge. rewrite index_0.
  change (PS.switch_eq (Some "merge") "clean") with false.
  change (PS.switch_eq (Some "merge") "merge") with true. cbv iota.
  unfold merge, cached_object_files, Get_ChildItem_cache_dir, run, mbind, M_bind,
    Test_Path_cache_dir, New_Item_cache_dir, mret, M_ret.
  destruct st as [[d|] a lg]; simpl; by rewrite create_archive_fresh.
Qed.

Lemma run_merge_phase_2 (files : string → option string) (st : state) :
  let d := default empty_dir (cache st) in
  run (ar_merge files ["merge-phase-2"]) st
  = Some (State (Some d)
                (<[merge_phase_2_output := objects_in name_leb d ++ [core_o]]> (archives st))
                (ar_log st
                 ++ ["qc" :: merge_phase_2_output :: objects_in name_leb d ++ [core_o]])).
Proof.
  unfold ArMerge.ar_merge. rewrite index_0.
  change (PS.switch_eq (Some "merge-phase-2") "clean") with false.
  change (PS.switch_eq (Some "merge-phase-2") "merge") with false.
  change (PS.switch_eq (Some "merge-phase-2") "merge-phase-2") with true. cbv iota.
  unfold merge_phase_2, cached_object_files, Get_ChildItem_cache_dir, run, mbind, M_bind,
    Test_Path_cache_dir, New_Item_cache_dir, mret, M_ret.
  destruct st as [[d|] a lg]; simpl; by rewrite create_archive_fresh.
Qed.

Lemma ar_merge_all_app (invs1 invs2 : list invocation) (st : state) :
  ar_merge_all cmake_binary_dir name_leb (invs1 ++ invs2) st
  = ar_merge_all cmake_binary_dir name_leb invs1 st
      ≫= ar_merge_all cmake_binary_dir name_leb invs2.
Proof.
  revert st. induction invs1 as [|[files args] invs1 IH]; intros st; simpl; [done |].
  destruct (run (ar_merge files args) st); simpl; [apply IH | done].
Qed.

End MergeRunFacts.

(** ** Sequences of record invocations *)

Section RecordFacts.

Import ArMerge Spec.

Lemma length_append (a b : string) :
  String.length (a +:+ b) = (String.length a + String.length b)%nat.
Proof. induction a as [|c a IH]; [done |]. rewrite append_cons. simpl. by rewrite IH. Qed.

Lemma append_suffix_inj (s a b : string) : a +:+ s = b +:+ s → a = b.
Proof.
  revert b. induction a as [|c a IH]; intros [|c' b] H.
  - done.
  - apply (f_equal String.length) in H.
    rewrite append_empty_l, append_cons in H. simpl in H.
    rewrite length_append in H. lia.
  - apply (f_equal String.length) in H.
    rewrite append_empty_l, append_cons in H. simpl in H.
    rewrite length_append in H. lia.
  - rewrite !append_cons in H. injection H as -> H. f_equal. by apply IH.
Qed.

Lemma list_file_inj (t1 t2 : string) :
  list_file t1 = list_file t2 → sanitized_key t1 = sanitized_key t2.
Proof. apply append_suffix_inj. Qed.

(** The shape of a record invocation. *)
Lemma record_invocation_inv (args : list string) :
  record_invocation args = true →
  ∃ command output obj objs,
    args = command :: output :: obj :: objs
    ∧ passes_through command = true
    ∧ Forall (λ p, object_path p = true) (obj :: objs).
Proof.
  destruct args as [|command [|output [|obj objs]]]; try done.
  unfold record_invocation. intros H. apply andb_prop in H as [Hc Ho].
  exists command, output, obj, objs. split_and!; [done | done |].
  apply Forall_forall. intros p Hp.
  rewrite forallb_forall in Ho. apply Ho. by apply list_elem_of_In.
Qed.

Lemma object_path_spec (p : string) :
  object_path p = true ↔ Str.is_empty p = false ∧ one_line p.
Proof.
  unfold object_path, one_line. rewrite !andb_true_iff, !negb_true_iff. tauto.
Qed.

Lemma expansion_paths (files : string → option string) (arg : string) :
  object_path arg = true →
  Forall (λ p, object_path p = true) (expansion files arg).
Proof.
  intros Harg. unfold expansion.
  destruct (PS.match_response_ref arg) as [rsp|]; [| by apply Forall_singleton].
  destruct (files rsp) as [text|]; [| by apply Forall_singleton].
  apply Forall_forall. intros p Hp.
  apply list_elem_of_In, filter_In in Hp as [Hp Hne].
  apply in_map_iff in Hp as (line & <- & Hline). apply object_path_spec. split.
  - by apply negb_true_iff.
  - apply one_line_trim.
    pose proof (read_lines_are_lines text "" one_line_empty) as Hall.
    rewrite Forall_forall in Hall. apply Hall. by apply list_elem_of_In.
Qed.

Lemma flat_map_Forall {A B} (P : B → Prop) (f : A → list B) (l : list A) :
  Forall (λ x, Forall P (f x)) l → Forall P (flat_map f l).
Proof.
  induction 1 as [|x l Hx _ IH]; simpl; [constructor | by apply Forall_app].
Qed.

Lemma object_list_paths (inv : invocation) :
  record_invocation inv.2 = true →
  Forall (λ p, object_path p = true) (object_list inv).
Proof.
  destruct inv as [files args]. simpl. intros Hr.
  apply record_invocation_inv in Hr as (command & output & obj & objs & -> & _ & Hobjs).
  unfold object_list. cbn [fst snd drop]. apply flat_map_Forall.
  eapply Forall_impl; [exact Hobjs |]. intros p Hp. by apply expansion_paths.
Qed.

Lemma last_recorded_snoc (t : string) (invs : list invocation) (inv : invocation) :
  last_recorded t (invs ++ [inv])
  = if decide (target inv.2 = Some t) then object_list inv else last_recorded t invs.
Proof. unfold last_recorded. by rewrite fold_left_app. Qed.

Lemma last_recorded_paths (t : string) (invs : list invocation) :
  Forall (λ inv : invocation, record_invocation inv.2 = true) invs →
  Forall (λ p, object_path p = true) (last_recorded t invs).
Proof.
  induction invs as [|inv invs IH] using rev_ind; intros Hall; [constructor |].
  apply Forall_app in Hall as [Hall Hinv]. rewrite Forall_singleton in Hinv.
  rewrite last_recorded_snoc. destruct (decide _).
  - by apply object_list_paths.
  - by apply IH.
Qed.

(** Reading a record back gives the object list that was written. *)
Lemma read_record (l : list string) :
  Forall (λ p, object_path p = true) l →
  List.filter PS.truthy (Get_Content (record_text l)) = l.
Proof.
  intros Hl. unfold Get_Content, record_text.
  rewrite read_lines_join.
  - destruct l as [|x l]; [done |].
    apply forallb_filter_id, forallb_forall. intros p Hp.
    rewrite Forall_forall in Hl. apply list_elem_of_In, Hl, object_path_spec in Hp as [Hp _].
    unfold PS.truthy. by rewrite Hp.
  - eapply Forall_impl; [exact Hl |]. intros p Hp. by apply object_path_spec in Hp as [_ ?].
Qed.

Lemma record_target (inv : invocation) :
  record_invocation inv.2 = true → ∃ t, target inv.2 = Some t.
Proof.
  intros Hr. apply record_invocation_inv in Hr as (c & o & obj & objs & -> & _).
  by exists o.
Qed.

Lemma targets_snoc (invs : list invocation) (inv : invocation) (t : string) :
  target inv.2 = Some t → targets (invs ++ [inv]) = targets invs ++ [t].
Proof. intros Ht. unfold targets. rewrite omap_app. simpl. by rewrite Ht. Qed.

Lemma cache_after_snoc (invs : list invocation) (inv : invocation)
    (d : gmap string string) :
  cache_after (invs ++ [inv]) d
  = <[list_file (default "" (target inv.2)) := record_text (object_list inv)]>
      (cache_after invs d).
Proof. unfold cache_after. by rewrite fold_left_app. Qed.

(** A file that is no target's list file is left alone. *)
Lemma cache_after_other (invs : list invocation) (d : gmap string string) (n : string) :
  Forall (λ inv : invocation, record_invocation inv.2 = true) invs →
  n ∉ list_file <$> targets invs →
  cache_after invs d !! n = d !! n.
Proof.
  induction invs as [|inv invs IH] using rev_ind; intros Hall Hn; [done |].
  apply Forall_app in Hall as [Hall Hinv]. rewrite Forall_singleton in Hinv.
  destruct (record_target inv Hinv) as [t Ht].
  rewrite cache_after_snoc, Ht. simpl.
  rewrite (targets_snoc _ _ _ Ht), fmap_app, not_elem_of_app in Hn.
  destruct Hn as [Hn1 Hn2]. simpl in Hn2. rewrite list_elem_of_singleton in Hn2.
  rewrite lookup_insert_ne by congruence. by apply IH.
Qed.

(** A target's list file holds what was last recorded for it, provided no
    other target shares its key. *)
Lemma cache_after_target (invs : list invocation) (d : gmap string string) (t : string) :
  Forall (λ inv : invocation, record_invocation inv.2 = true) invs →
  (∀ t1 t2, t1 ∈ targets invs → t2 ∈ targets invs →
            sanitized_key t1 = sanitized_key t2 → t1 = t2) →
  t ∈ targets invs →
  cache_after invs d !! list_file t = Some (record_text (last_recorded t invs)).
Proof.
  induction invs as [|inv invs IH] using rev_ind; intros Hall Hinj Ht.
  { by apply elem_of_nil in Ht. }
  apply Forall_app in Hall as [Hall Hinv]. rewrite Forall_singleton in Hinv.
  destruct (record_target inv Hinv) as [o Ho].
  rewrite cache_after_snoc, last_recorded_snoc, Ho. simpl.
  rewrite (targets_snoc _ _ _ Ho) in Ht, Hinj.
  destruct (decide (Some o = Some t)) as [[= ->]|Hne].
  - by rewrite lookup_insert_eq.
  - assert (t ∈ targets invs) as Ht'.
    { apply elem_of_app in Ht as [Ht|Ht]; [done |].
      apply list_elem_of_singleton in Ht. congruence. }
    rewrite lookup_insert_ne.
    + apply IH; [done | | done].
      intros t1 t2 H1 H2. apply Hinj; apply elem_of_app; by left.
    + intros Heq. apply list_file_inj in Heq. apply Hne. f_equal.
      apply Hinj; [apply elem_of_app; right; by apply list_elem_of_singleton
                  | apply elem_of_app; by left | done].
Qed.

End RecordFacts.

Section RunRecords.

Import ArMerge Spec.
Context (cmake_binary_dir : string) (name_leb : string → string → bool).

Local Abbreviation ar_merge := (ar_merge cmake_binary_dir name_leb).
Local Abbreviation ar_merge_all := (ar_merge_all cmake_binary_dir name_leb).

(** A record invocation succeeds and replaces its target's list file. *)
Lemma run_record (inv : invocation) (st : state) :
  record_invocation inv.2 = true →
  ∃ st', run (ar_merge inv.1 inv.2) st = Some st'
         ∧ cache st' = Some (cache_after [inv] (default empty_dir (cache st))).
Proof.
  destruct inv as [files args]. simpl. intros Hr.
  apply record_invocation_inv in Hr as (c & o & obj & objs & -> & Hc & _).
  rewrite (run_default _ _ _ _ _ _ _ Hc), rest_cons_cons. eexists. split; [done |].
  reflexivity.
Qed.

Lemma run_records (invs : list invocation) (st : state) :
  Forall (λ inv : invocation, record_invocation inv.2 = true) invs →
  ∃ st', ar_merge_all invs st = Some st'
         ∧ default empty_dir (cache st') = cache_after invs (default empty_dir (cache st)).
Proof.
  revert st. induction invs as [|[files args] invs IH]; intros st Hall.
  { by exists st. }
  apply Forall_cons in Hall as [Hinv Hall].
  destruct (run_record (files, args) st Hinv) as (st1 & Hrun & Hcache).
  destruct (IH st1 Hall) as (st' & Hall' & Hcache').
  exists st'. split.
  - simpl in *. by rewrite Hrun.
  - rewrite Hcache', Hcache. done.
Qed.

End RunRecords.

(** ** What a merge reads after a sequence of record invocations *)

Section Listing.

Import ArMerge Spec.
Context (name_leb : string → string → bool).
Hypothesis name_leb_total : ∀ a b, name_leb a b = true ∨ name_leb b a = true.
Hypothesis name_leb_trans :
  ∀ a b c, name_leb a b = true → name_leb b c = true → name_leb a c = true.
Hypothesis name_leb_antisym : ∀ a b, name_leb a b = true → name_leb b a = true → a = b.

Local Abbreviation listed_before := (listed_before name_leb).

#[local] Instance listed_before_total : Total listed_before.
Proof. intros x y. apply name_leb_total. Qed.

#[local] Instance listed_before_trans : Transitive listed_before.
Proof. intros x y z. apply name_leb_trans. Qed.

(** A directory has one listing. *)
Lemma listing_unique (d : gmap string string) (items : list (string * string)) :
  Sorted listed_before items → items ≡ₚ map_to_list d →
  merge_sort listed_before (map_to_list d) = items.
Proof.
  intros Hsorted Hperm.
  apply (Sorted_unique_strong listed_before).
  - intros [n1 c1] [n2 c2] H1 H2 H12 H21.
    rewrite merge_sort_Permutation in H1. rewrite Hperm in H2.
    apply elem_of_map_to_list in H1, H2.
    assert (n1 = n2) as -> by (by apply name_leb_antisym).
    congruence.
  - apply Sorted_merge_sort; apply _.
  - done.
  - by rewrite merge_sort_Permutation.
Qed.

Lemma filter_flat_map {A B} (p : B → bool) (f : A → list B) (l : list A) :
  List.filter p (flat_map f l) = flat_map (λ x, List.filter p (f x)) l.
Proof. induction l as [|x l IH]; simpl; [done |]. by rewrite List.filter_app, IH. Qed.

Lemma flat_map_fmap {A B C} (g : A → B) (f : B → list C) (l : list A) :
  flat_map f (g <$> l) = flat_map (λ x, f (g x)) l.
Proof. induction l as [|x l IH]; csimpl; [done |]. by rewrite IH. Qed.

(** The entries of the cache after the invocations [invs], for targets
    with distinct keys. *)
Lemma cache_after_entries (invs : list invocation) (ts : list string) :
  Forall (λ inv : invocation, record_invocation inv.2 = true) invs →
  NoDup (sanitized_key <$> ts) → ts ⊆ targets invs → targets invs ⊆ ts →
  (λ t, (list_file t, record_text (last_recorded t invs))) <$> ts
  ≡ₚ map_to_list (cache_after invs ∅).
Proof.
  intros Hall Hkeys Hsub1 Hsub2.
  assert (∀ t1 t2, t1 ∈ targets invs → t2 ∈ targets invs →
                   sanitized_key t1 = sanitized_key t2 → t1 = t2) as Hinj.
  { intros t1 t2 H1%Hsub2 H2%Hsub2 Heq.
    apply list_elem_of_lookup in H1 as [i Hi], H2 as [j Hj].
    assert (i = j) as ->; [| congruence].
    eapply NoDup_lookup; [exact Hkeys | |]; rewrite list_lookup_fmap.
    - by rewrite Hi.
    - by rewrite Hj, Heq. }
  apply NoDup_Permutation.
  - apply (NoDup_fmap_1 fst). rewrite <- list_fmap_compose.
    change (NoDup ((λ t, sanitized_key t +:+ ".list") <$> ts)).
    rewrite (list_fmap_compose sanitized_key (λ k, k +:+ ".list")).
    apply NoDup_fmap_2; [| done]. intros a b. apply append_suffix_inj.
  - apply NoDup_map_to_list.
  - intros [n c]. rewrite elem_of_map_to_list, list_elem_of_fmap. split.
    + intros (t & [= -> ->] & Ht). apply cache_after_target; auto.
    + intros Hlook.
      destruct (decide (n ∈ list_file <$> targets invs)) as [Hin|Hout].
      * apply list_elem_of_fmap in Hin as (t & -> & Ht).
        rewrite cache_after_target in Hlook by done.
        exists t. split; [congruence | auto].
      * rewrite cache_after_other in Hlook by done. done.
Qed.

Lemma objects_in_cache_after (invs : list invocation) (ts : list string) :
  Forall (λ inv : invocation, record_invocation inv.2 = true) invs →
  NoDup (sanitized_key <$> ts) → ts ⊆ targets invs → targets invs ⊆ ts →
  Sorted (target_order name_leb) ts →
  objects_in name_leb (cache_after invs ∅) = flat_map (λ t, last_recorded t invs) ts.
Proof.
  intros Hall Hkeys Hsub1 Hsub2 Hsorted. unfold objects_in.
  rewrite (listing_unique _
             ((λ t, (list_file t, record_text (last_recorded t invs))) <$> ts)).
  - rewrite flat_map_fmap, filter_flat_map. simpl.
    apply flat_map_ext. intros t. apply read_record. by apply last_recorded_paths.
  - eapply Sorted_fmap; [| exact Hsorted]. intros t1 t2 H12. exact H12.
  - by apply cache_after_entries.
Qed.

End Listing.

(** ** The archive cache: the claimed properties *)

Section ArchiveCache.

Import ArMerge Spec.
Context (cmake_binary_dir : string) (name_leb : string → string → bool).

Local Abbreviation ar_merge := (ar_merge cmake_binary_dir name_leb).
Local Abbreviation ar_merge_all := (ar_merge_all cmake_binary_dir name_leb).
Local Abbreviation merge_output := (merge_output cmake_binary_dir).
Local Abbreviation merge_phase_2_output := (merge_phase_2_output cmake_binary_dir).
Local Abbreviation core_o := (core_o cmake_binary_dir).

Lemma objects_in_empty : objects_in name_leb ∅ = [].
Proof. unfold objects_in. by rewrite map_to_list_empty. Qed.

Lemma splat_assign_array (items : list string) :
  length items ≠ 1%nat → PS.splat (PS.assign items) = items.
Proof. by destruct items as [|x [|y items]]. Qed.

Lemma splat_assign_one (item : string) :
  PS.splat (PS.assign [item]) = PS.chars item.
Proof. reflexivity. Qed.

Lemma merge_members_empty : merge_members name_leb ∅ = [].
Proof. unfold merge_members. by rewrite objects_in_empty. Qed.

Lemma outputs_differ : merge_output ≠ merge_phase_2_output.
Proof.
  unfold ArMerge.merge_output, ArMerge.merge_phase_2_output.
  intros H. by apply (inj (String.app cmake_binary_dir)) in H.
Qed.

(** What both merges hand the archiver on any state: [merge-phase-2] the
    cached object lines followed by the core library, [merge] what the
    splat makes of them. With no line or with two or more the two agree up
    to the core library. *)
Lemma merges_on_any_state (files1 files2 : string → option string) (st : state) :
  let lines := objects_in name_leb (default empty_dir (cache st)) in
  ∃ st1 st2,
    run (ar_merge files1 ["merge"]) st = Some st1
    ∧ run (ar_merge files2 ["merge-phase-2"]) st = Some st2
    ∧ ar_log st1 = ar_log st ++ ["qc" :: merge_output :: PS.splat (PS.assign lines)]
    ∧ ar_log st2 = ar_log st ++ ["qc" :: merge_phase_2_output :: lines ++ [core_o]]
    ∧ archives st1 !! merge_output = Some (PS.splat (PS.assign lines))
    ∧ archives st2 !! merge_phase_2_output = Some (lines ++ [core_o]).
Proof.
  cbv zeta. rewrite run_merge, run_merge_phase_2. do 2 eexists.
  split_and!; try reflexivity; simpl; apply lookup_insert_eq.
Qed.

(** C2, at the inputs where it fails. On a cache directory that holds
    exactly one object line, [merge-phase-2] hands the archiver that line
    followed by the core library, and [merge], which holds the line as a
    string and splats it, hands the archiver the characters of the line;
    the two write to different output paths. *)
Theorem merge_of_one_object_passes_characters (files1 files2 : string → option string)
    (st : state) (line : string) :
  objects_in name_leb (default empty_dir (cache st)) = [line] →
  ∃ st1 st2,
    run (ar_merge files1 ["merge"]) st = Some st1
    ∧ run (ar_merge files2 ["merge-phase-2"]) st = Some st2
    ∧ ar_log st1 = ar_log st ++ ["qc" :: merge_output :: PS.chars line]
    ∧ ar_log st2 = ar_log st ++ ["qc" :: merge_phase_2_output :: [line; core_o]]
    ∧ archives st1 !! merge_output = Some (PS.chars line)
    ∧ archives st2 !! merge_phase_2_output = Some [line; core_o]
    ∧ merge_output ≠ merge_phase_2_output.
Proof.
  intros Hline.
  destruct (merges_on_any_state files1 files2 st) as (st1 & st2 & H1 & H2 & H3 & H4 & H5 & H6).
  cbv zeta in *. rewrite Hline in *. exists st1, st2.
  split_and!; try done. apply outputs_differ.
Qed.

(** With no cached object line, or with two or more, [merge-phase-2] hands
    the archiver what [merge] hands it followed by the core library. *)
Lemma merge_phase_2_appends_core_to_arrays (files1 files2 : string → option string)
    (st : state) :
  length (objects_in name_leb (default empty_dir (cache st))) ≠ 1%nat →
  ∃ (object_files : list string) (st1 st2 : state),
    run (ar_merge files1 ["merge"]) st = Some st1
    ∧ run (ar_merge files2 ["merge-phase-2"]) st = Some st2
    ∧ ar_log st1 = ar_log st ++ ["qc" :: merge_output :: object_files]
    ∧ ar_log st2 = ar_log st ++ ["qc" :: merge_phase_2_output :: object_files ++ [core_o]]
    ∧ archives st1 !! merge_output = Some object_files
    ∧ archives st2 !! merge_phase_2_output = Some (object_files ++ [core_o])
    ∧ merge_output ≠ merge_phase_2_output.
Proof.
  intros Hlen.
  destruct (merges_on_any_state files1 files2 st) as (st1 & st2 & H1 & H2 & H3 & H4 & H5 & H6).
  cbv zeta in *. rewrite (splat_assign_array _ Hlen) in *.
  eexists _, st1, st2. split_and!; try done. apply outputs_differ.
Qed.

(** C3. [clean] followed by [merge] succeeds, whatever the state before:
    the cache directory is there and empty, the archiver is run with no
    member, and the merged archive has none. *)
Theorem clean_then_merge_is_empty (files1 files2 : string → option string) (st : state) :
  ∃ st', ar_merge_all [(files1, ["clean"]); (files2, ["merge"])] st = Some st'
         ∧ cache st' = Some ∅
         ∧ ar_log st' = ar_log st ++ [["qc"; merge_output]]
         ∧ archives st' !! merge_output = Some [].
Proof.
  cbn [ArMerge.ar_merge_all]. rewrite run_clean, run_merge. simpl.
  rewrite merge_members_empty. eexists. split_and!; try reflexivity.
  simpl. apply lookup_insert_eq.
Qed.

(** C4, as the code has it. A record invocation with at least one object
    argument succeeds, and the record it leaves for its target lists, for
    every object argument in order, the trimmed non-blank lines of the
    response file when the argument refers to one that is there at record
    time, and the argument itself otherwise; with object arguments that are
    one-line paths, reading the record back gives exactly that list. *)
Theorem record_holds_expanded_objects (files : string → option string)
    (command output obj : string) (objs : list string) (st : state) :
  passes_through command = true →
  ∃ (st' : state) (d : gmap string string),
    run (ar_merge files (command :: output :: obj :: objs)) st = Some st'
    ∧ cache st' = Some d
    ∧ d !! list_file output = Some (record_text (flat_map (expansion files) (obj :: objs)))
    ∧ (forallb object_path (obj :: objs) = true →
       List.filter PS.truthy (Get_Content (record_text (flat_map (expansion files) (obj :: objs))))
       = flat_map (expansion files) (obj :: objs)).
Proof.
  intros Hc. rewrite (run_default _ _ _ _ _ _ _ Hc), rest_cons_cons.
  do 2 eexists. split_and!; try reflexivity.
  - simpl. apply lookup_insert_eq.
  - intros Hobjs. apply read_record, flat_map_Forall.
    rewrite forallb_forall in Hobjs. apply Forall_forall. intros p Hp.
    apply expansion_paths, Hobjs. by apply list_elem_of_In.
Qed.

(** C5, at the input where it fails. An invocation without object
    arguments is forwarded with its output path repeated as a member: the
    slice [$remaining_args[1..0]] is the output path again. *)
Theorem forwarding_without_objects_repeats_output (files : string → option string)
    (command output : string) (st : state) :
  passes_through command = true →
  ∃ st', run (ar_merge files [command; output]) st = Some st'
         ∧ ar_log st' = ar_log st ++ [[command; output; output]].
Proof.
  intros Hc. rewrite (run_default _ _ _ _ _ _ _ Hc), rest_singleton.
  eexists. split; reflexivity.
Qed.

(** With an object argument the forwarded vector is the invocation's. *)
Lemma forwarding_with_objects (files : string → option string)
    (command output obj : string) (objs : list string) (st : state) :
  passes_through command = true →
  ∃ st', run (ar_merge files (command :: output :: obj :: objs)) st = Some st'
         ∧ ar_log st' = ar_log st ++ [command :: output :: obj :: objs].
Proof.
  intros Hc. rewrite (run_default _ _ _ _ _ _ _ Hc), rest_cons_cons.
  eexists. split; reflexivity.
Qed.

End ArchiveCache.

Section MergeAfterRecords.

Import ArMerge Spec.
Context (cmake_binary_dir : string) (name_leb : string → string → bool).

Local Abbreviation ar_merge := (ar_merge cmake_binary_dir name_leb).
Local Abbreviation ar_merge_all := (ar_merge_all cmake_binary_dir name_leb).
Local Abbreviation merge_output := (merge_output cmake_binary_dir).

(** A sequence of record invocations followed by [merge]. *)
Lemma run_records_then_merge (invs : list invocation) (files : string → option string)
    (st : state) :
  Forall (λ inv : invocation, record_invocation inv.2 = true) invs →
  ∃ st', ar_merge_all (invs ++ [(files, ["merge"])]) st = Some st'
         ∧ cache st' = Some (cache_after invs (default empty_dir (cache st)))
         ∧ archives st' !! merge_output
           = Some (merge_members name_leb (cache_after invs (default empty_dir (cache st)))).
Proof.
  intros Hall. destruct (run_records cmake_binary_dir name_leb invs st Hall)
    as (st1 & Hrun & Hcache).
  rewrite ar_merge_all_app, Hrun. cbn [mbind option_bind ArMerge.ar_merge_all].
  rewrite run_merge. cbv zeta. rewrite Hcache.
  eexists. split_and!; try reflexivity. simpl. apply lookup_insert_eq.
Qed.

Lemma objects_in_singleton (n : string) (objects : list string) :
  Forall (λ p, object_path p = true) objects →
  objects_in name_leb {[ n := record_text objects ]} = objects.
Proof.
  intros Hobjects. unfold objects_in. rewrite map_to_list_singleton.
  change (merge_sort _ [?x]) with [x]. cbn [flat_map snd]. rewrite app_nil_r.
  by apply read_record.
Qed.

(** C10, with the input where it fails. The key of a target is not
    injective: the distinct paths [a/b] and [a_b] have the key [a_b].
    Whenever two targets share their key, the record of the one recorded
    later replaces the other's, and a merge that follows holds nothing of
    the earlier target: it holds the later object list when that has two
    objects or more, and the characters of the object when it has one. *)
Theorem colliding_keys_overwrite (files1 files2 files3 : string → option string)
    (command1 command2 output1 output2 obj2 : string) (objs1 objs2 : list string)
    (st : state) :
  passes_through command1 = true → passes_through command2 = true →
  forallb object_path (obj2 :: objs2) = true →
  sanitized_key output1 = sanitized_key output2 →
  default empty_dir (cache st) = ∅ →
  let later := flat_map (expansion files2) (obj2 :: objs2) in
  ("a/b" ≠ "a_b" ∧ sanitized_key "a/b" = sanitized_key "a_b")
  ∧ ∃ st', ar_merge_all [(files1, command1 :: output1 :: objs1);
                         (files2, command2 :: output2 :: obj2 :: objs2);
                         (files3, ["merge"])] st = Some st'
           ∧ cache st' = Some {[ list_file output2 := record_text later ]}
           ∧ archives st' !! merge_output
             = Some (match later with
                     | [object] => PS.chars object
                     | _ => later
                     end).
Proof.
  intros Hc1 Hc2 Hobjs Hkey Hempty later. split; [by split |].
  cbn [ArMerge.ar_merge_all].
  rewrite (run_default _ _ _ _ _ _ _ Hc1), (run_default _ _ _ _ _ _ _ Hc2), run_merge.
  rewrite rest_cons_cons. cbn [cache archives ar_log default id]. rewrite Hempty.
  assert (list_file output1 = list_file output2) as ->
    by (unfold list_file; by rewrite Hkey).
  rewrite insert_insert_eq, insert_empty.
  eexists. split_and!; try reflexivity.
  cbn [archives]. rewrite lookup_insert_eq. f_equal.
  unfold merge_members.
  change (Str.join (String Str.LF "") ?l +:+ PS.newline) with (record_text l).
  fold later. rewrite objects_in_singleton.
  - by destruct later as [|x [|y l]].
  - apply (flat_map_Forall _ _ (obj2 :: objs2)).
    rewrite forallb_forall in Hobjs. apply Forall_forall. intros p Hp.
    apply expansion_paths, Hobjs. by apply list_elem_of_In.
Qed.

Hypothesis name_leb_total : ∀ a b, name_leb a b = true ∨ name_leb b a = true.
Hypothesis name_leb_trans :
  ∀ a b c, name_leb a b = true → name_leb b c = true → name_leb a c = true.
Hypothesis name_leb_antisym : ∀ a b, name_leb a b = true → name_leb b a = true → a = b.

(** C1, as the code has it. Take record invocations, each with at least
    one object argument and one-line object paths, run on an absent or
    empty cache directory and followed by [merge], and let [ts] list their
    targets, which have pairwise distinct sanitized keys, in the order in
    which the directory lists their list files. When the object lists most
    recently recorded for the targets hold no object or two or more in all,
    the run succeeds and the merged archive holds these lists, target by
    target in that order. *)
Theorem merge_holds_latest_records (invs : list invocation) (ts : list string)
    (files : string → option string) (st : state) :
  Forall (λ inv : invocation, record_invocation inv.2 = true) invs →
  NoDup (sanitized_key <$> ts) → ts ⊆ targets invs → targets invs ⊆ ts →
  Sorted (target_order name_leb) ts →
  default empty_dir (cache st) = ∅ →
  length (flat_map (λ t, last_recorded t invs) ts) ≠ 1%nat →
  ∃ st', ar_merge_all (invs ++ [(files, ["merge"])]) st = Some st'
         ∧ archives st' !! merge_output
           = Some (flat_map (λ t, last_recorded t invs) ts).
Proof.
  intros Hall Hkeys Hsub1 Hsub2 Hsorted Hempty Hlen.
  destruct (run_records_then_merge invs files st Hall) as (st' & Hrun & _ & Harch).
  exists st'. split; [done |].
  rewrite Harch, Hempty. f_equal. unfold merge_members.
  rewrite (objects_in_cache_after name_leb name_leb_total name_leb_trans name_leb_antisym
             invs ts) by done.
  by apply splat_assign_array.
Qed.

End MergeAfterRecords.

(** ** The toolchain resolver *)

Section ToolchainFacts.

Import Toolchain Spec.

Lemma exists_no_error_probes (e : env) (p : string) :
  (exists_no_error e p).2 = [p].
Proof. reflexivity. Qed.

Lemma exists_no_error_true (e : env) (p : string) :
  (exists_no_error e p).1 = true ↔ fs e p = Present.
Proof. unfold exists_no_error. simpl. destruct (fs e p); split; congruence. Qed.

(** The check probes nothing but the path it is given, and only when the
    rule lets it through. *)
Lemma is_accessible_path_probes (e : env) (p q : string) :
  q ∈ (is_accessible_path e p).2 → q = p ∧ users_path_rule e p ≠ Some false.
Proof.
  unfold is_accessible_path.
  destruct (users_path_rule e p) as [[|]|]; simpl;
    rewrite ?elem_of_nil, ?list_elem_of_singleton; intros H; by try split.
Qed.

Lemma is_accessible_path_true (e : env) (p : string) :
  (is_accessible_path e p).1 = true →
  fs e p = Present ∧ p ∈ (is_accessible_path e p).2 ∧ users_path_rule e p ≠ Some false.
Proof.
  unfold is_accessible_path.
  destruct (users_path_rule e p) as [[|]|]; simpl; try done;
    intros H; (split; [by destruct (fs e p) | split; [by apply list_elem_of_singleton | done]]).
Qed.

(** What the rule says of a path under [/Users/]. *)
Lemma users_path_rule_users (e : env) (p : string) :
  Str.starts_with "/Users/" p = true →
  users_path_rule e p = Some (negb (is_app_bundle e) && under_home e p).
Proof.
  intros Hp. unfold users_path_rule. rewrite Hp. by destruct (is_app_bundle e).
Qed.

(** Every path [find_clang] probes is the bundled compiler's or one the
    rule lets through. *)
Lemma find_clang_probes (e : env) (q : string) :
  q ∈ (find_clang e).2 → q = installed_path e ∨ users_path_rule e q ≠ Some false.
Proof.
  unfold find_clang.
  destruct (exists_no_error e (installed_path e)) as [ok1 p1] eqn:H1.
  assert (p1 = [installed_path e]) as -> by (by injection H1).
  destruct ok1; simpl.
  { rewrite list_elem_of_singleton. by left. }
  destruct (is_accessible_path e (JANK_CLANG_PATH e)) as [ok2 p2] eqn:H2.
  assert (∀ q, q ∈ p2 → users_path_rule e q ≠ Some false) as Hp2.
  { intros q' Hq'. change p2 with ((ok2, p2).2) in Hq'. rewrite <- H2 in Hq'.
    by apply is_accessible_path_probes in Hq' as [-> ?]. }
  destruct ok2; simpl.
  { rewrite elem_of_cons. intros [->|Hq]; [by left | right; by apply Hp2]. }
  destruct (CXX e) as [cxx|]; simpl.
  - destruct (is_accessible_path e cxx) as [ok3 p3] eqn:H3.
    assert (∀ q, q ∈ p3 → users_path_rule e q ≠ Some false) as Hp3.
    { intros q' Hq'. change p3 with ((ok3, p3).2) in Hq'. rewrite <- H3 in Hq'.
      by apply is_accessible_path_probes in Hq' as [-> ?]. }
    destruct ok3; simpl; rewrite elem_of_cons, elem_of_app;
      (intros [->|[Hq|Hq]]; [by left | right; by apply Hp2 | right; by apply Hp3]).
  - rewrite elem_of_cons. intros [->|Hq]; [by left | right; by apply Hp2].
Qed.

(** The compiler [find_clang] returns was probed and found, and it is the
    bundled one or one the rule lets through. *)
Lemma find_clang_found (e : env) (p : string) :
  (find_clang e).1 = Some p →
  fs e p = Present ∧ p ∈ (find_clang e).2
  ∧ (p = installed_path e ∨ users_path_rule e p ≠ Some false).
Proof.
  unfold find_clang.
  destruct (exists_no_error e (installed_path e)) as [ok1 p1] eqn:H1.
  assert (p1 = [installed_path e]) as -> by (by injection H1).
  destruct ok1; simpl.
  { intros [= <-]. split_and!; [| by apply list_elem_of_singleton | by left].
    apply exists_no_error_true. by rewrite H1. }
  destruct (is_accessible_path e (JANK_CLANG_PATH e)) as [ok2 p2] eqn:H2.
  destruct ok2; simpl.
  { intros [= <-].
    destruct (is_accessible_path_true e (JANK_CLANG_PATH e)) as (? & Hin & ?);
      [by rewrite H2 |].
    rewrite H2 in Hin. split_and!; [done | | by right].
    rewrite elem_of_cons. by right. }
  destruct (CXX e) as [cxx|]; simpl; [| done].
  destruct (is_accessible_path e cxx) as [ok3 p3] eqn:H3.
  destruct ok3; simpl; [| done].
  intros [= <-].
  destruct (is_accessible_path_true e cxx) as (? & Hin & ?); [by rewrite H3 |].
  rewrite H3 in Hin. split_and!; [done | | by right].
  rewrite elem_of_cons, elem_of_app. right. by right.
Qed.

(** The flag filter probes only what the check probes for the path of one
    of its flags. *)
Lemma filter_loop_probes (check : string → probed bool) (flags : list string)
    (args seen : list string) (q : string) :
  q ∈ (fold_left (filter_step check) flags (args, seen)).2 →
  q ∈ seen ∨ ∃ flag, flag ∈ flags ∧ q ∈ (check (Str.substr_from 2 flag)).2.
Proof.
  revert args seen. induction flags as [|flag flags IH]; intros args seen;
    cbn [fold_left]; [by left |].
  intros Hq. unfold filter_step at 2 in Hq.
  destruct (Str.starts_with "-I" flag).
  - destruct (check (Str.substr_from 2 flag)) as [ok ps] eqn:Hcheck.
    assert (q ∈ seen ++ ps ∨ ∃ flag, flag ∈ flags ∧ q ∈ (check (Str.substr_from 2 flag)).2)
      as [Hin|(flag' & Hflag' & Hin)] by (destruct ok; by apply IH in Hq).
    + apply elem_of_app in Hin as [Hin|Hin]; [by left | right].
      exists flag. split; [apply list_elem_of_here | by rewrite Hcheck].
    + right. exists flag'. split; [by apply list_elem_of_further | done].
  - apply IH in Hq as [Hin|(flag' & Hflag' & Hin)]; [by left | right].
    exists flag'. split; [by apply list_elem_of_further | done].
Qed.

Lemma filter_effective_flags_probes (e : env) (args : list string) (q : string) :
  q ∈ (filter_effective_flags e args).2 → users_path_rule e q ≠ Some false.
Proof.
  intros [Hin|(flag & _ & Hin)]%filter_loop_probes.
  - by apply elem_of_nil in Hin.
  - by apply is_accessible_path_probes in Hin as [-> ?].
Qed.

(** Outside a bundle the rule rejects exactly the paths the earlier test of
    lines 157-161 skips. *)
Lemma rule_agrees_with_home_test (e : env) (p : string) :
  is_app_bundle e = false →
  users_path_rule e p = Some false ↔ other_users_path e p = true.
Proof.
  intros Hb. unfold users_path_rule, other_users_path. rewrite Hb.
  destruct (Str.starts_with "/Users/" p), (under_home e p); simpl;
    split; congruence.
Qed.

(** C6, as the code has it. For a path under [/Users/]: the accessibility
    check rejects it without a probe in an application bundle, and outside
    one when it does not lie under [HOME]; under [HOME] outside a bundle
    the check probes it and returns the probe's answer. [find_clang] puts
    its configured path and its [CXX] override through this check, so it
    neither probes nor returns a rejected path, and a returned path was
    probed and found; the bundled compiler alone is probed whatever its
    path. The flag filter probes no rejected path either. *)
Theorem users_paths_classified_before_probing (e : env) (p : string)
    (args : list string) :
  Str.starts_with "/Users/" p = true →
  is_accessible_path e p
  = (if is_app_bundle e then (false, [])
     else if under_home e p then exists_no_error e p
     else (false, []))
  ∧ ((is_app_bundle e || negb (under_home e p)) = true →
     (p ∉ (filter_effective_flags e args).2)
     ∧ (p ≠ installed_path e → (p ∉ (find_clang e).2) ∧ (find_clang e).1 ≠ Some p))
  ∧ ((find_clang e).1 = Some p → fs e p = Present ∧ p ∈ (find_clang e).2)
  ∧ (is_app_bundle e = false → under_home e p = true → p = JANK_CLANG_PATH e →
     fs e (installed_path e) ≠ Present →
     p ∈ (find_clang e).2 ∧ ((find_clang e).1 = Some p ↔ fs e p = Present)).
Proof.
  intros Hp. pose proof (users_path_rule_users e p Hp) as Hrule. split_and!.
  - unfold is_accessible_path. rewrite Hrule.
    by destruct (is_app_bundle e), (under_home e p).
  - intros Hrej.
    assert (users_path_rule e p = Some false) as Hfalse.
    { rewrite Hrule. f_equal.
      destruct (is_app_bundle e), (under_home e p); simpl in *; congruence. }
    split; [by intros ?%filter_effective_flags_probes |].
    intros Hne. split.
    + intros [?|?]%find_clang_probes; done.
    + intros (_ & _ & [?|?])%find_clang_found; done.
  - intros (? & ? & _)%find_clang_found. done.
  - intros Hb Hh -> Hinst.
    assert (is_accessible_path e (JANK_CLANG_PATH e)
            = exists_no_error e (JANK_CLANG_PATH e)) as Hacc.
    { unfold is_accessible_path. by rewrite Hrule, Hb, Hh. }
    unfold find_clang.
    destruct (exists_no_error e (installed_path e)) as [ok1 p1] eqn:H1.
    assert (p1 = [installed_path e]) as -> by (by injection H1).
    assert (ok1 = false) as ->.
    { destruct ok1; [| done]. exfalso. apply Hinst, exists_no_error_true. by rewrite H1. }
    rewrite Hacc.
    destruct (exists_no_error e (JANK_CLANG_PATH e)) as [ok2 p2] eqn:H2.
    assert (p2 = [JANK_CLANG_PATH e]) as -> by (by injection H2).
    assert (ok2 = true ↔ fs e (JANK_CLANG_PATH e) = Present) as Hok2.
    { rewrite <- exists_no_error_true. by rewrite H2. }
    destruct ok2; simpl.
    + split; [| by split; [intros _; apply Hok2 | ]].
      rewrite elem_of_cons, list_elem_of_singleton. by right.
    + assert (JANK_CLANG_PATH e ∈ installed_path e :: [JANK_CLANG_PATH e]) as Hin.
      { rewrite elem_of_cons, list_elem_of_singleton. by right. }
      destruct (CXX e) as [cxx|] eqn:Hcxx; simpl.
      * destruct (is_accessible_path e cxx) as [[|] p3] eqn:H3; simpl.
        -- split; [rewrite !elem_of_cons; right; by left |].
           split; [| intros Hpres; apply Hok2 in Hpres; done].
           intros [= ->]. congruence.
        -- split; [rewrite !elem_of_cons; right; by left |].
           split; [done | intros Hpres; apply Hok2 in Hpres; done].
      * split; [done |]. split; [done | intros Hpres; apply Hok2 in Hpres; done].
Qed.

End ToolchainFacts.

(** ** The flag filter *)

Section FlagFilterFacts.

Import Toolchain Spec.

(** The text is its flags joined by single spaces, up to one closing
    space. *)
Lemma getlines_join (s cur : string) :
  let flags := getlines " "%char cur s in
  cur +:+ s = Str.join " " flags ∨ cur +:+ s = Str.join " " flags +:+ " ".
Proof.
  revert cur. induction s as [|c s IH]; intros cur; cbn [getlines].
  - rewrite append_empty_r. destruct cur; simpl; by left.
  - destruct (Ascii.eqb_spec c " "%char) as [-> | Hc].
    + specialize (IH ""). cbv zeta in *. rewrite append_empty_l in IH.
      destruct (getlines " "%char "" s) as [|flag flags] eqn:Hflags.
      * right. simpl in IH. destruct IH as [-> | ->]; [done |].
        by vm_compute in Hflags.
      * change (Str.join " " (cur :: flag :: flags))
          with (cur +:+ " " +:+ Str.join " " (flag :: flags)).
        destruct IH as [-> | ->]; [left | right].
        -- by rewrite (append_cons " "%char "").
        -- by rewrite (append_cons " "%char ""), !append_assoc.
    + rewrite <- append_char_assoc. apply IH.
Qed.

Lemma getlines_no_delim (s cur : string) :
  Str.has_char " "%char cur = false →
  Forall (λ flag, Str.has_char " "%char flag = false) (getlines " "%char cur s).
Proof.
  revert cur. induction s as [|c s IH]; intros cur Hcur; cbn [getlines].
  - destruct (Str.is_empty cur); [apply Forall_nil_2 | by apply Forall_singleton].
  - destruct (Ascii.eqb c " "%char) eqn:Hc.
    + constructor; [done | by apply IH].
    + apply IH. rewrite has_char_app. cbn [Str.has_char]. by rewrite Hcur, Hc.
Qed.

Lemma filter_sublist {A} (p : A → bool) (l : list A) : List.filter p l `sublist_of` l.
Proof.
  induction l as [|x l IH]; simpl; [constructor |].
  destruct (p x); by constructor.
Qed.

(** The loop keeps exactly the retained flags, behind the arguments it
    started with. *)
Lemma filter_loop (check : string → probed bool) (flags : list string)
    (args seen : list string) :
  (fold_left (filter_step check) flags (args, seen)).1
  = args ++ List.filter (retained check) flags.
Proof.
  revert args seen. induction flags as [|flag flags IH]; intros args seen;
    cbn [fold_left List.filter].
  - by rewrite app_nil_r.
  - unfold retained at 1. unfold filter_step at 2.
    destruct (Str.starts_with "-I" flag).
    + destruct (check (Str.substr_from 2 flag)) as [[|] ps]; cbn [negb fst]; rewrite IH;
        by rewrite <- ?app_assoc.
    + rewrite IH. by rewrite <- app_assoc.
Qed.

(** C7, as the code has it. The flag text is cut at every space character
    (and only there); of the flags so found the loop appends, in their
    order and unchanged, every flag that does not start with [-I] and every
    [-I] flag whose path passes the check, and no other. *)
Theorem filter_flags_keeps_checked_flags (e : env) (args : list string) :
  let found := getlines " "%char "" (JANK_JIT_FLAGS e) in
  let kept := List.filter (retained (is_accessible_path e)) found in
  (filter_effective_flags e args).1 = args ++ kept
  ∧ kept `sublist_of` found
  ∧ (JANK_JIT_FLAGS e = Str.join " " found
     ∨ JANK_JIT_FLAGS e = Str.join " " found +:+ " ")
  ∧ Forall (λ flag, Str.has_char " "%char flag = false) found.
Proof.
  cbv zeta. split_and!.
  - apply filter_loop.
  - apply filter_sublist.
  - apply (getlines_join (JANK_JIT_FLAGS e) "").
  - by apply getlines_no_delim.
Qed.

End FlagFilterFacts.

(** ** Precompiled-header flags and link arguments *)

Section FlagLists.

(** C8. Whatever the arguments so far and the header path, loading the
    precompiled header appends the flag that makes clang read it, the path,
    and the flag pair that turns its validation off; the result always
    holds [-fno-validate-pch]. *)
Theorem load_flags_disables_validation (pch_path_str : string) (args : list string) :
  Pch.load_flags pch_path_str args
  = args ++ ["-include-pch"; pch_path_str; "-Xclang"; "-fno-validate-pch"]
  ∧ "-fno-validate-pch" ∈ Pch.load_flags pch_path_str args.
Proof.
  assert (Pch.load_flags pch_path_str args
          = args ++ ["-include-pch"; pch_path_str; "-Xclang"; "-fno-validate-pch"]) as H.
  { unfold Pch.load_flags, Pch.emplace_back. by rewrite <- !app_assoc. }
  split; [done |]. rewrite H, elem_of_app. right.
  rewrite !elem_of_cons. tauto.
Qed.

Lemma add_user_libs_spec (libs compiler_args : list string) :
  Aot.add_user_libs libs compiler_args
  = compiler_args ++ ((λ lib, "-l" +:+ lib) <$> libs).
Proof.
  unfold Aot.add_user_libs. revert compiler_args.
  induction libs as [|lib libs IH]; intros compiler_args; csimpl.
  - by rewrite app_nil_r.
  - rewrite IH. unfold Aot.push_back. by rewrite <- app_assoc.
Qed.

(** C9. The composed arguments are those composed before, then one [-l]
    flag for every requested library, in order, then, on a macOS-like
    platform, the framework flags for OpenGL, Cocoa, IOKit and
    CoreFoundation. *)
Theorem link_args_have_libs_then_frameworks (macos_like : bool)
    (libs compiler_args : list string) :
  Aot.compose_link_args macos_like libs compiler_args
  = compiler_args
    ++ ((λ lib, "-l" +:+ lib) <$> libs)
    ++ (if macos_like
        then ["-framework"; "OpenGL"; "-framework"; "Cocoa";
              "-framework"; "IOKit"; "-framework"; "CoreFoundation"]
        else [])
  ∧ length ((λ lib, "-l" +:+ lib) <$> libs) = length libs.
Proof.
  split; [| apply length_fmap].
  unfold Aot.compose_link_args, Aot.add_frameworks. rewrite add_user_libs_spec.
  destruct macos_like.
  - unfold Aot.push_back. simpl. by rewrite <- !app_assoc.
  - by rewrite app_nil_r.
Qed.

End FlagLists.

(** ** The properties on concrete builds *)

Section Concrete.

Import ArMerge Spec Toolchain Scenario.

(** Decides a closed proposition by evaluating its decision procedure. *)
Ltac by_computation :=
  match goal with
  | |- ?P => apply (bool_decide_unpack P); vm_compute; exact I
  end.

Lemma by_code_total (a b : string) : by_code a b = true ∨ by_code b a = true.
Proof. apply String.leb_total. Qed.

Lemma by_code_antisym (a b : string) : by_code a b = true → by_code b a = true → a = b.
Proof. apply String.leb_antisym. Qed.

Lemma by_code_trans (a b c : string) :
  by_code a b = true → by_code b c = true → by_code a c = true.
Proof.
  unfold by_code. intros Hab Hbc. apply Is_true_true.
  apply Is_true_true in Hab, Hbc.
  change (String.le a c). by transitivity b.
Qed.

(** The end-to-end scenario: [A] with two objects, [B] with one, [A] again
    with one, then [merge]. *)
Lemma merge_holds_latest_records_witness :
  (Forall (λ inv : invocation, record_invocation inv.2 = true) records
   ∧ NoDup (sanitized_key <$> ["A"; "B"])
   ∧ ["A"; "B"] ⊆ targets records ∧ targets records ⊆ ["A"; "B"]
   ∧ Sorted (target_order by_code) ["A"; "B"]
   ∧ default empty_dir (cache initial) = ∅
   ∧ length (flat_map (λ t, last_recorded t records) ["A"; "B"]) ≠ 1%nat)
  ∧ ∃ st', ar_merge_all build by_code (records ++ [(no_files, ["merge"])]) initial = Some st'
           ∧ archives st' !! merge_output build = Some ["a1.o"; "b1.o"].
Proof.
  assert (Forall (λ inv : invocation, record_invocation inv.2 = true) records) as H1
    by (repeat constructor).
  assert (NoDup (sanitized_key <$> ["A"; "B"])) as H2
    by (by_computation).
  assert (["A"; "B"] ⊆ targets records) as H3
    by (by_computation).
  assert (targets records ⊆ ["A"; "B"]) as H4
    by (by_computation).
  assert (Sorted (target_order by_code) ["A"; "B"]) as H5
    by (by_computation).
  assert (length (flat_map (λ t, last_recorded t records) ["A"; "B"]) ≠ 1%nat) as H6
    by (by_computation).
  split; [by repeat split |].
  exact (merge_holds_latest_records build by_code by_code_total by_code_trans
           by_code_antisym records ["A"; "B"] no_files initial H1 H2 H3 H4 H5 eq_refl H6).
Defined.

(** C1 as stated fails. The targets [a/b] and [a_b] are distinct paths
    with one key, and the merged archive holds the objects of the second
    one only. The targets [a] and [a-b] have distinct keys, sorted in this
    order, and the merged archive holds the object of [a-b] first, as
    [a-b.list] comes before [a.list] in the directory. A single target
    with the single object [a.o] is merged as the three characters of
    [a.o]. *)
Lemma merge_lists_targets_counterexample :
  ¬ merge_lists_every_distinct_path build by_code
  ∧ ¬ merge_lists_targets build by_code colliding ["a/b"; "a_b"] no_files
  ∧ ¬ merge_lists_targets build by_code misordered ["a"; "a-b"] no_files
  ∧ ¬ merge_lists_targets build by_code single ["A"] no_files
  ∧ (∃ st', ar_merge_all build by_code (colliding ++ [(no_files, ["merge"])]) initial
            = Some st'
            ∧ archives st' !! merge_output build = Some ["y1.o"; "y2.o"])
  ∧ (∃ st', ar_merge_all build by_code (misordered ++ [(no_files, ["merge"])]) initial
            = Some st'
            ∧ archives st' !! merge_output build = Some ["b1.o"; "a1.o"; "a2.o"])
  ∧ (∃ st', ar_merge_all build by_code (single ++ [(no_files, ["merge"])]) initial
            = Some st'
            ∧ archives st' !! merge_output build = Some ["a"; "."; "o"]).
Proof.
  assert (¬ merge_lists_targets build by_code colliding ["a/b"; "a_b"] no_files) as Hkeys.
  { intros H.
    destruct H as (st' & Hrun & Harch);
      [repeat constructor | by_computation | by_computation | by_computation
      | by_computation |].
    vm_compute in Hrun. injection Hrun as <-. vm_compute in Harch. discriminate. }
  assert (¬ merge_lists_targets build by_code misordered ["a"; "a-b"] no_files) as Horder.
  { intros H.
    destruct H as (st' & Hrun & Harch);
      [repeat constructor | by_computation | by_computation | by_computation
      | by_computation |].
    vm_compute in Hrun. injection Hrun as <-. vm_compute in Harch. discriminate. }
  assert (¬ merge_lists_targets build by_code single ["A"] no_files) as Hone.
  { intros H.
    destruct H as (st' & Hrun & Harch);
      [repeat constructor | by_computation | by_computation | by_computation
      | by_computation |].
    vm_compute in Hrun. injection Hrun as <-. vm_compute in Harch. discriminate. }
  split_and!; [| done | done | done | | |].
  - intros H. apply Hkeys, H.
  - eexists. split; [vm_compute; reflexivity |]. vm_compute. reflexivity.
  - eexists. split; [vm_compute; reflexivity |]. vm_compute. reflexivity.
  - eexists. split; [vm_compute; reflexivity |]. vm_compute. reflexivity.
Qed.

(** A cache directory with the one record of [qc libx.a main.o]: [merge]
    hands the archiver the six characters of [main.o], [merge-phase-2] the
    object followed by the core library. *)
Lemma merge_of_one_object_witness :
  objects_in by_code (default empty_dir (cache one_object)) = ["main.o"]
  ∧ ∃ st1 st2,
      run (ar_merge build by_code no_files ["merge"]) one_object = Some st1
      ∧ run (ar_merge build by_code no_files ["merge-phase-2"]) one_object = Some st2
      ∧ ar_log st1 = [ ["qc"; merge_output build; "m"; "a"; "i"; "n"; "."; "o"] ]
      ∧ ar_log st2 = [ ["qc"; merge_phase_2_output build; "main.o"; core_o build] ]
      ∧ archives st1 !! merge_output build = Some ["m"; "a"; "i"; "n"; "."; "o"]
      ∧ archives st2 !! merge_phase_2_output build = Some ["main.o"; core_o build]
      ∧ merge_output build ≠ merge_phase_2_output build.
Proof.
  assert (objects_in by_code (default empty_dir (cache one_object)) = ["main.o"]) as H
    by (vm_compute; reflexivity).
  split; [exact H |].
  exact (merge_of_one_object_passes_characters build by_code no_files no_files
           one_object "main.o" H).
Defined.

(** On that cache directory the members of [merge-phase-2] are not those of
    [merge] followed by the core library. *)
Lemma one_object_is_splatted :
  ¬ phase_2_is_merge_plus_core build by_code one_object.
Proof.
  intros H.
  specialize (H no_files no_files
                (State (cache one_object)
                       {[ merge_output build := ["m"; "a"; "i"; "n"; "."; "o"] ]}
                       [ ["qc"; merge_output build; "m"; "a"; "i"; "n"; "."; "o"] ])
                (State (cache one_object)
                       {[ merge_phase_2_output build := ["main.o"; core_o build] ]}
                       [ ["qc"; merge_phase_2_output build; "main.o"; core_o build] ])
                ["m"; "a"; "i"; "n"; "."; "o"] ["main.o"; core_o build]).
  assert (["main.o"; core_o build] = ["m"; "a"; "i"; "n"; "."; "o"] ++ [core_o build]) as Heq.
  { apply H.
    - vm_compute. reflexivity.
    - vm_compute. reflexivity.
    - apply lookup_insert_eq.
    - apply lookup_insert_eq. }
  discriminate Heq.
Qed.

(** A record invocation with a response file that is there, a plain object
    and a response file that is not. *)
Lemma record_holds_expanded_objects_witness :
  passes_through "qc" = true
  ∧ ∃ (st' : state) (d : gmap string string),
      run (ar_merge build by_code one_rsp
             ["qc"; "lib/libx.a"; "@objs.rsp"; "main.o"; "@gone.rsp"]) initial = Some st'
      ∧ cache st' = Some d
      ∧ d !! "lib_libx.a.list"
        = Some (record_text ["gc.o"; "rt.o"; "main.o"; "@gone.rsp"])
      ∧ List.filter PS.truthy
          (Get_Content (record_text ["gc.o"; "rt.o"; "main.o"; "@gone.rsp"]))
        = ["gc.o"; "rt.o"; "main.o"; "@gone.rsp"].
Proof.
  split; [reflexivity |].
  destruct (record_holds_expanded_objects build by_code one_rsp "qc" "lib/libx.a"
              "@objs.rsp" ["main.o"; "@gone.rsp"] initial eq_refl)
    as (st' & d & Hrun & Hcache & Hrecord & Hread).
  exists st', d. split_and!; [exact Hrun | exact Hcache | exact Hrecord |].
  exact (Hread eq_refl).
Defined.

(** C4 as stated fails: a reference to a response file that is not there
    is recorded as it stands. *)
Lemma missing_response_file_counterexample :
  ¬ response_refs_never_recorded build by_code.
Proof.
  intros H.
  apply (H no_files "qc" "libx.a" "@gone.rsp" ["@gone.rsp"] initial
           (State (Some {[ "libx.a.list" := record_text ["@gone.rsp"] ]})
                  {[ "libx.a" := ["@gone.rsp"] ]} [["qc"; "libx.a"; "@gone.rsp"]])
           {[ "libx.a.list" := record_text ["@gone.rsp"] ]}
           (record_text ["@gone.rsp"])).
  - reflexivity.
  - by apply list_elem_of_singleton.
  - by eexists.
  - rewrite run_default by reflexivity. reflexivity.
  - reflexivity.
  - apply lookup_singleton_eq.
  - vm_compute. by apply list_elem_of_singleton.
Qed.

(** The archiver asked to list an archive: [ar-merge.ps1 t libx.a]. *)
Lemma forwarding_without_objects_witness :
  passes_through "t" = true
  ∧ ∃ st', run (ar_merge build by_code no_files ["t"; "libx.a"]) initial = Some st'
           ∧ ar_log st' = ar_log initial ++ [["t"; "libx.a"; "libx.a"]].
Proof.
  split; [reflexivity |].
  exact (forwarding_without_objects_repeats_output build by_code no_files
           "t" "libx.a" initial eq_refl).
Defined.

(** So the forwarded arguments are not always the invocation's own. *)
Lemma forwarding_changes_arguments : ¬ forwards_arguments_unchanged build by_code.
Proof.
  intros H.
  specialize (H no_files "t" "libx.a" [] initial _ eq_refl
                (run_default build by_code no_files "t" "libx.a" [] initial eq_refl)).
  vm_compute in H. discriminate.
Qed.

(** The targets [a/b] and [a_b], the later one with the single object
    [y.o]: its record replaces that of [a/b], and the merge hands the
    archiver the three characters of [y.o]. *)
Lemma colliding_keys_overwrite_witness :
  (passes_through "qc" = true
   ∧ forallb object_path ["y.o"] = true
   ∧ sanitized_key "a/b" = sanitized_key "a_b"
   ∧ default empty_dir (cache initial) = ∅)
  ∧ ("a/b" ≠ "a_b" ∧ sanitized_key "a/b" = sanitized_key "a_b")
  ∧ ∃ st', ar_merge_all build by_code (colliding_one ++ [(no_files, ["merge"])]) initial
           = Some st'
           ∧ cache st' = Some {[ "a_b.list" := record_text ["y.o"] ]}
           ∧ archives st' !! merge_output build = Some ["y"; "."; "o"].
Proof.
  split; [by repeat split |].
  exact (colliding_keys_overwrite build by_code no_files no_files no_files
           "qc" "qc" "a/b" "a_b" "y.o" ["x.o"] [] initial
           eq_refl eq_refl eq_refl eq_refl eq_refl).
Defined.

(** The configured compiler of a development tree, under the user's home. *)
Lemma users_paths_classified_witness :
  Str.starts_with "/Users/" "/Users/me/llvm/bin/clang++" = true
  ∧ is_accessible_path development "/Users/me/llvm/bin/clang++"
    = (true, ["/Users/me/llvm/bin/clang++"])
  ∧ (find_clang development).1 = Some "/Users/me/llvm/bin/clang++".
Proof.
  split; [reflexivity |].
  destruct (users_paths_classified_before_probing development
              "/Users/me/llvm/bin/clang++" [] eq_refl) as (Hcheck & _ & _ & Hfound).
  split; [exact Hcheck |].
  apply (Hfound eq_refl eq_refl eq_refl); [discriminate | reflexivity].
Defined.

(** C6 as stated fails: the compiler bundled with an application under a
    user's home is a candidate under [/Users/], and it is probed. *)
Lemma bundled_compiler_probed_counterexample :
  ¬ bundle_probes_no_users_candidate.
Proof.
  intros H.
  apply (H bundled (installed_path bundled)).
  - reflexivity.
  - apply list_elem_of_here.
  - reflexivity.
  - vm_compute. apply list_elem_of_here.
Qed.

(** C7 as stated fails: a tab is white space and does not end a flag. *)
Lemma tab_separated_flags_counterexample :
  ¬ filters_whitespace_separated_flags.
Proof.
  intros H. specialize (H tabbed []).
  vm_compute in H. discriminate.
Qed.

End Concrete.

(** * Further properties of the code *)

(** ** ar-merge.ps1: every invocation *)

Section EveryInvocation.

Import ArMerge Spec.
Context (cmake_binary_dir : string) (name_leb : string → string → bool).

Local Abbreviation ar_merge := (ar_merge cmake_binary_dir name_leb).
Local Abbreviation ar_merge_all := (ar_merge_all cmake_binary_dir name_leb).
Local Abbreviation merge_output := (merge_output cmake_binary_dir).
Local Abbreviation merge_phase_2_output := (merge_phase_2_output cmake_binary_dir).

(** The [default] clause on a cache directory that is there. *)
Lemma default_mode_run (files : string → option string) (command : option string)
    (remaining_args : list string) (d : gmap string string)
    (a : gmap string (list string)) (lg : list (list string)) :
  let output := PS.index remaining_args 0 in
  let argv := option_list command ++ option_list output ++ PS.rest remaining_args in
  default_mode files command remaining_args (State (Some d) a lg)
  = Some ((), State
                (Some (<[list_file (default "" output) :=
                           record_text (expand_object_args files (PS.rest remaining_args))]> d))
                (ar_effect argv a) (lg ++ [argv])).
Proof.
  cbv zeta. unfold default_mode, mbind, M_bind, Test_Path_cached, Remove_Item_cached,
    Out_File, invoke_ar, mret, M_ret, record_text. cbn [cache archives ar_log].
  destruct (bool_decide _); cbn [cache archives ar_log fmap option_fmap option_map];
    by rewrite ?insert_delete_eq.
Qed.

(** What any invocation does, by subcommand. *)
Lemma ar_merge_cases (files : string → option string) (args : list string) (st : state) :
  let d := default empty_dir (cache st) in
  ∃ st', run (ar_merge files args) st = Some st'
    ∧ ((PS.switch_eq (PS.index args 0) "clean" = true
        ∧ cache st' = Some ∅ ∧ archives st' = archives st ∧ ar_log st' = ar_log st)
       ∨ (PS.switch_eq (PS.index args 0) "clean" = false
          ∧ ∃ (argv : list string) (d' : gmap string string),
              ar_log st' = ar_log st ++ [argv] ∧ cache st' = Some d'
              ∧ dom d ⊆ dom d')).
Proof.
  cbv zeta. unfold ArMerge.ar_merge.
  destruct (PS.switch_eq (PS.index args 0) "clean") eqn:Hclean.
  { eexists. split; [| left; split; [done |]].
    - by destruct st as [[d|] a lg].
    - by destruct st as [[d|] a lg]. }
  destruct (PS.switch_eq (PS.index args 0) "merge") eqn:Hmerge.
  { pose proof (run_merge cmake_binary_dir name_leb files st) as Hrun.
    unfold ArMerge.ar_merge in Hrun. rewrite index_0 in Hrun.
    change (PS.switch_eq (Some "merge") "clean") with false in Hrun.
    change (PS.switch_eq (Some "merge") "merge") with true in Hrun.
    cbv iota zeta in Hrun. rewrite Hrun.
    eexists. split; [done |]. right. split; [done |].
    do 2 eexists. split_and!; [done | done | done]. }
  destruct (PS.switch_eq (PS.index args 0) "merge-phase-2") eqn:Hphase.
  { pose proof (run_merge_phase_2 cmake_binary_dir name_leb files st) as Hrun.
    unfold ArMerge.ar_merge in Hrun. rewrite index_0 in Hrun.
    change (PS.switch_eq (Some "merge-phase-2") "clean") with false in Hrun.
    change (PS.switch_eq (Some "merge-phase-2") "merge") with false in Hrun.
    change (PS.switch_eq (Some "merge-phase-2") "merge-phase-2") with true in Hrun.
    cbv iota zeta in Hrun. rewrite Hrun.
    eexists. split; [done |]. right. split; [done |].
    do 2 eexists. split_and!; [done | done | done]. }
  unfold run, mbind, M_bind, Test_Path_cache_dir, New_Item_cache_dir, mret, M_ret.
  destruct st as [[d|] a lg]; cbn -[default_mode PS.rest PS.index];
    rewrite default_mode_run; cbv zeta;
    (eexists; split; [done |]; right; split; [done |];
     do 2 eexists; split_and!; [done | done | apply dom_insert_subseteq]).
Qed.








(** X3. Only [clean] removes records: it leaves the cache directory empty,
    and after any other invocation every file that was in the directory is
    still there. *)
Theorem only_clean_removes_records (files : string → option string)
    (args : list string) (st : state) :
  ∃ st', run (ar_merge files args) st = Some st'
    ∧ if PS.switch_eq (PS.index args 0) "clean"
      then cache st' = Some ∅
      else ∃ d', cache st' = Some d' ∧ dom (default empty_dir (cache st)) ⊆ dom d'.
Proof.
  destruct (ar_merge_cases files args st)
    as (st' & Hrun & [(-> & Hc & _)|(-> & argv & d' & _ & Hc & Hd)]);
    exists st'; split; eauto.
Qed.



(** X5. Recording is idempotent on the cache: running a passed-through
    invocation a second time on the same files leaves the cache directory
    as the first run left it. *)
Theorem record_twice_is_record_once (files : string → option string)
    (command output : string) (objs : list string) (st : state) :
  passes_through command = true →
  ∃ st1 st2,
    ar_merge_all [(files, command :: output :: objs)] st = Some st1
    ∧ ar_merge_all [(files, command :: output :: objs);
                    (files, command :: output :: objs)] st = Some st2
    ∧ cache st2 = cache st1.
Proof.
  intros Hc. cbn [ArMerge.ar_merge_all].
  rewrite !(run_default _ _ _ _ _ _ _ Hc). do 2 eexists.
  split_and!; [done | done |]. cbn [cache default id]. by rewrite insert_insert_eq.
Qed.

(** X6. Records of targets with different keys do not depend on the order
    of their invocations: either order leaves the same cache directory. *)
Theorem records_of_distinct_keys_commute (files1 files2 : string → option string)
    (command1 command2 output1 output2 : string) (objs1 objs2 : list string)
    (st : state) :
  passes_through command1 = true → passes_through command2 = true →
  sanitized_key output1 ≠ sanitized_key output2 →
  ∃ st12 st21,
    ar_merge_all [(files1, command1 :: output1 :: objs1);
                  (files2, command2 :: output2 :: objs2)] st = Some st12
    ∧ ar_merge_all [(files2, command2 :: output2 :: objs2);
                    (files1, command1 :: output1 :: objs1)] st = Some st21
    ∧ cache st12 = cache st21.
Proof.
  intros Hc1 Hc2 Hkeys. cbn [ArMerge.ar_merge_all].
  rewrite !(run_default _ _ _ _ _ _ _ Hc1), !(run_default _ _ _ _ _ _ _ Hc2),
    !(run_default _ _ _ _ _ _ _ Hc1).
  do 2 eexists. split_and!; [done | done |]. cbn [cache default id]. f_equal.
  apply insert_insert_ne. intros Heq. by apply list_file_inj in Heq.
Qed.

(** X7. A merge can be repeated: [merge] reads the cache directory and
    leaves its files as they are, and a second [merge] leaves the same
    archives as the first, the merged archive not doubled. *)
Theorem merge_twice_is_merge_once (files1 files2 : string → option string) (st : state) :
  ∃ st1 st2,
    ar_merge_all [(files1, ["merge"])] st = Some st1
    ∧ ar_merge_all [(files1, ["merge"]); (files2, ["merge"])] st = Some st2
    ∧ cache st1 = Some (default empty_dir (cache st))
    ∧ cache st2 = cache st1
    ∧ archives st2 = archives st1.
Proof.
  cbn [ArMerge.ar_merge_all]. rewrite !run_merge. cbv zeta.
  do 2 eexists. split_and!; [done | done | done | done |].
  cbn [cache archives default id]. by rewrite insert_insert_eq.
Qed.

End EveryInvocation.


(** ** ar-merge.ps1: what a merge holds *)

Section MergeMembers.

Import ArMerge Spec.
Context (cmake_binary_dir : string) (name_leb : string → string → bool).

Local Abbreviation ar_merge := (ar_merge cmake_binary_dir name_leb).
Local Abbreviation ar_merge_all := (ar_merge_all cmake_binary_dir name_leb).
Local Abbreviation merge_output := (merge_output cmake_binary_dir).

Lemma elem_of_flat_map {A B} (f : A → list B) (l : list A) (y : B) :
  y ∈ flat_map f l ↔ ∃ x, x ∈ l ∧ y ∈ f x.
Proof.
  rewrite list_elem_of_In, in_flat_map. split; intros (x & Hx & Hy); exists x;
    by rewrite ?list_elem_of_In in *.
Qed.

Lemma elem_of_objects_in (d : gmap string string) (x : string) :
  x ∈ objects_in name_leb d
  ↔ x ≠ "" ∧ ∃ n text, d !! n = Some text ∧ x ∈ Get_Content text.
Proof.
  unfold objects_in. rewrite list_elem_of_In, filter_In, <- list_elem_of_In.
  rewrite elem_of_flat_map. unfold PS.truthy. rewrite negb_true_iff. split.
  - intros [([n text] & Hitem & Hx) Hne].
    rewrite merge_sort_Permutation, elem_of_map_to_list in Hitem.
    split; [by intros -> | by exists n, text].
  - intros [Hne (n & text & Hlook & Hx)]. split.
    + exists (n, text). by rewrite merge_sort_Permutation, elem_of_map_to_list.
    + by destruct x.
Qed.

(** A file of the cache directory gives its non-empty lines to the
    cached object lines. *)
Lemma objects_in_length (d : gmap string string) (n text : string) :
  d !! n = Some text →
  (length (List.filter PS.truthy (Get_Content text)) ≤ length (objects_in name_leb d))%nat.
Proof.
  intros Hlook. unfold objects_in.
  assert ((n, text) ∈ merge_sort (listed_before name_leb) (map_to_list d)) as Hitem
    by (by rewrite merge_sort_Permutation, elem_of_map_to_list).
  apply list_elem_of_split in Hitem as (l1 & l2 & ->).
  rewrite flat_map_app. cbn [flat_map snd].
  rewrite !List.filter_app, !length_app. lia.
Qed.

(** X8. In whatever order the directory is listed, the cached object lines
    are exactly the non-empty lines of the files of the cache directory. A
    merge puts them into the archive as they are when there is none or
    there are two or more; when there is exactly one, line 33 holds it as a
    string and the members of the archive are its characters. *)
Theorem merge_holds_cached_lines_or_characters (files : string → option string)
    (st : state) :
  let lines := objects_in name_leb (default empty_dir (cache st)) in
  ∃ (st' : state) (members : list string),
    run (ar_merge files ["merge"]) st = Some st'
    ∧ archives st' !! merge_output = Some members
    ∧ (∀ x, x ∈ lines
            ↔ x ≠ "" ∧ ∃ n text, default empty_dir (cache st) !! n = Some text
                                 ∧ x ∈ Get_Content text)
    ∧ members = match lines with
                | [line] => PS.chars line
                | _ => lines
                end.
Proof.
  rewrite run_merge. cbv zeta. do 2 eexists.
  split_and!; [done | apply lookup_insert_eq | intros x; apply elem_of_objects_in |].
  unfold merge_members.
  by destruct (objects_in name_leb (default empty_dir (cache st))) as [|x [|y lines]].
Qed.

(** X9. Whatever else the cache directory holds, a record invocation with
    two or more objects followed by [merge] puts every object of the
    invocation's object list into the merged archive. *)
Theorem recorded_objects_reach_the_merge (inv : invocation)
    (files : string → option string) (st : state) :
  record_invocation inv.2 = true →
  (2 ≤ length (object_list inv))%nat →
  ∃ (st' : state) (members : list string),
    ar_merge_all [inv; (files, ["merge"])] st = Some st'
    ∧ archives st' !! merge_output = Some members
    ∧ Forall (λ object, object ∈ members) (object_list inv).
Proof.
  intros Hr Hlen. destruct inv as [files0 args].
  destruct (run_record cmake_binary_dir name_leb (files0, args) st Hr) as (st1 & Hrun & Hc).
  cbn [ArMerge.ar_merge_all]. cbn [fst snd] in Hrun. rewrite Hrun, run_merge. cbv zeta.
  do 2 eexists. split_and!; [done | apply lookup_insert_eq |].
  rewrite Hc. cbn [default id].
  destruct (record_target (files0, args) Hr) as [t Ht].
  assert (cache_after [(files0, args)] (default empty_dir (cache st)) !! list_file t
          = Some (record_text (object_list (files0, args)))) as Hlook.
  { unfold cache_after. cbn [fold_left]. rewrite Ht. apply lookup_insert_eq. }
  pose proof (object_list_paths (files0, args) Hr) as Hpaths.
  pose proof (objects_in_length _ _ _ Hlook) as Hlines.
  rewrite (read_record _ Hpaths) in Hlines.
  unfold merge_members.
  rewrite splat_assign_array.
  2:{ intros Hone.
      assert (length (object_list (files0, args)) ≤ 1)%nat as Hle; [| lia].
      eapply Nat.le_trans; [exact Hlines | apply Nat.eq_le_incl, Hone]. }
  apply Forall_forall. intros x Hx. apply elem_of_objects_in.
  rewrite Forall_forall in Hpaths. pose proof (Hpaths x Hx) as Hpath.
  apply object_path_spec in Hpath as [Hne _]. split; [by intros -> |].
  exists (list_file t), (record_text (object_list (files0, args))). split; [done |].
  apply list_elem_of_In.
  rewrite <- (read_record (object_list (files0, args))) in Hx
    by (by apply object_list_paths).
  apply list_elem_of_In, filter_In in Hx as [Hx _]. exact Hx.
Qed.

(** X10. What is written to a record comes back when it is read, but for
    the empty entries, which a merge drops. *)
Theorem record_read_back (objects : list string) :
  Forall one_line objects →
  List.filter PS.truthy (Get_Content (record_text objects))
  = List.filter PS.truthy objects.
Proof.
  intros Hl. unfold Get_Content, record_text. rewrite read_lines_join by done.
  by destruct objects.
Qed.

(** X11. An invocation without object arguments records its own output
    path, and a merge that follows on an otherwise empty cache finds that
    one line, holds it as a string and puts its characters into the merged
    archive. *)
Theorem record_without_objects_merges_characters (files1 files2 : string → option string)
    (command output : string) (st : state) :
  passes_through command = true → object_path output = true →
  Str.starts_with "@" output = false →
  default empty_dir (cache st) = ∅ →
  ∃ st', ar_merge_all [(files1, [command; output]); (files2, ["merge"])] st = Some st'
         ∧ cache st' = Some {[ list_file output := record_text [output] ]}
         ∧ archives st' !! merge_output = Some (PS.chars output).
Proof.
  intros Hc Hpath Hat Hempty. cbn [ArMerge.ar_merge_all].
  rewrite (run_default _ _ _ _ _ _ _ Hc), rest_singleton, run_merge. cbv zeta.
  cbn [cache archives default id flat_map]. rewrite Hempty, insert_empty, app_nil_r.
  assert (expansion files1 output = [output]) as ->.
  { unfold expansion, PS.match_response_ref. destruct output as [|c output]; [done |].
    cbn [Str.starts_with] in Hat. rewrite Ascii.eqb_sym in Hat.
    by destruct (Ascii.eqb c "@"%char). }
  eexists. split_and!; [done | done |].
  cbn [archives]. rewrite lookup_insert_eq. f_equal.
  change (Str.join (String Str.LF "") ?l +:+ PS.newline) with (record_text l).
  unfold merge_members. rewrite objects_in_singleton by (by apply Forall_singleton).
  reflexivity.
Qed.

End MergeMembers.

(** ** ar-merge.ps1: keys, expansion and dispatch *)

Section KeysAndExpansion.

Import ArMerge Spec.
Context (cmake_binary_dir : string) (name_leb : string → string → bool).

Local Abbreviation ar_merge := (ar_merge cmake_binary_dir name_leb).

Lemma replace_slashes_has_no (c : ascii) (s : string) :
  Ascii.eqb c "/"%char || Ascii.eqb c "\"%char = true →
  Str.has_char c (PS.replace_slashes s) = false.
Proof.
  intros Hc. induction s as [|x s IH]; [done |].
  cbn [PS.replace_slashes Str.has_char]. rewrite IH.
  destruct (Ascii.eqb x "/"%char || Ascii.eqb x "\"%char) eqn:Hx.
  - destruct (Ascii.eqb_spec "_"%char c) as [<- |]; [done | done].
  - destruct (Ascii.eqb_spec x c) as [-> |]; [congruence | done].
Qed.

Lemma replace_slashes_fixed (s : string) :
  PS.replace_slashes s = s
  ↔ Str.has_char "/"%char s = false ∧ Str.has_char "\"%char s = false.
Proof.
  induction s as [|x s IH]; [done |]. cbn [PS.replace_slashes Str.has_char].
  destruct (Ascii.eqb_spec x "/"%char) as [-> | Hs]; cbn [orb].
  { split; [intros [= _] | intros [? _]]; done. }
  destruct (Ascii.eqb_spec x "\"%char) as [-> | Hb].
  { split; [intros [= _] | intros [_ ?]]; done. }
  rewrite <- IH. split; [by intros [= ?] | by intros ->].
Qed.

(** X12. The key of an output path has the path's length and holds neither
    a slash nor a backslash, so the list file lies in the cache directory
    itself; taking the key of a key changes nothing, and the key is the
    path itself exactly when the path has no separator. *)
Theorem sanitized_key_is_flat (output : string) :
  Str.has_char "/"%char (sanitized_key output) = false
  ∧ Str.has_char "\"%char (sanitized_key output) = false
  ∧ String.length (sanitized_key output) = String.length output
  ∧ sanitized_key (sanitized_key output) = sanitized_key output
  ∧ (sanitized_key output = output
     ↔ Str.has_char "/"%char output = false ∧ Str.has_char "\"%char output = false).
Proof.
  unfold sanitized_key.
  pose proof (replace_slashes_has_no "/"%char output eq_refl) as H1.
  pose proof (replace_slashes_has_no "\"%char output eq_refl) as H2.
  split_and!; [done | done | | | apply replace_slashes_fixed].
  - induction output as [|c output IH]; [done |].
    cbn [PS.replace_slashes String.length]. f_equal. apply IH.
    + apply (replace_slashes_has_no "/"%char output eq_refl).
    + apply (replace_slashes_has_no "\"%char output eq_refl).
  - by apply replace_slashes_fixed.
Qed.

(** X13. The key does not tell the two separators apart: a path written
    with backslashes has the key of the path written with slashes. *)
Theorem sanitized_key_ignores_separator_style (output : string) :
  sanitized_key (with_backslashes output) = sanitized_key output.
Proof.
  unfold sanitized_key. induction output as [|c output IH]; [done |].
  cbn [with_backslashes PS.replace_slashes]. rewrite IH. f_equal.
  destruct (Ascii.eqb_spec c "/"%char) as [-> | Hs]; [done |].
  by rewrite (proj2 (Ascii.eqb_neq _ _) Hs).
Qed.

Lemma match_response_ref_at (arg : string) :
  Str.starts_with "@" arg = false → PS.match_response_ref arg = None.
Proof.
  destruct arg as [|c arg]; [done |]. cbn [Str.starts_with PS.match_response_ref].
  rewrite Ascii.eqb_sym. by destruct (Ascii.eqb c "@"%char).
Qed.

(** X14. Object arguments that do not start with [@] are recorded as they
    are and in their order, whatever files there are. *)
Theorem plain_arguments_expand_to_themselves (files : string → option string)
    (object_args : list string) :
  Forall (λ arg, Str.starts_with "@" arg = false) object_args →
  expand_object_args files object_args = object_args.
Proof.
  intros Hall. rewrite expand_object_args_spec.
  induction Hall as [|arg args Harg _ IH]; [done |].
  cbn [flat_map]. rewrite IH. unfold expansion.
  by rewrite (match_response_ref_at _ Harg).
Qed.

Lemma first_char_trim_start (s : string) (c : ascii) :
  first_char (Str.trim_start s) = Some c → Str.is_space c = false.
Proof.
  induction s as [|x s IH]; [done |]. cbn [Str.trim_start].
  destruct (Str.is_space x) eqn:Hx; [exact IH |]. by intros [= <-].
Qed.

Lemma first_char_trim_end (s : string) (c : ascii) :
  first_char (Str.trim_end s) = Some c → first_char s = Some c.
Proof.
  destruct s as [|x s]; [done |]. cbn [Str.trim_end].
  by destruct (Str.is_space x && Str.is_empty (Str.trim_end s)).
Qed.

Lemma last_char_trim_end (s : string) (c : ascii) :
  last_char (Str.trim_end s) = Some c → Str.is_space c = false.
Proof.
  induction s as [|x s IH]; [done |]. cbn [Str.trim_end].
  destruct (Str.is_space x) eqn:Hx; cbn [andb].
  - destruct (Str.trim_end s) as [|y t] eqn:Ht; [done |]. cbn [Str.is_empty].
    cbn [last_char]. exact IH.
  - destruct (Str.trim_end s) as [|y t] eqn:Ht.
    + cbn [last_char]. by intros [= <-].
    + cbn [last_char]. exact IH.
Qed.

Lemma trim_unpadded (s : string) : unpadded (Str.trim s).
Proof.
  split; intros c Hc; unfold Str.trim in Hc.
  - by apply first_char_trim_end, first_char_trim_start in Hc.
  - by apply last_char_trim_end in Hc.
Qed.

(** X15. Every entry the expansion takes from a response file is a single
    line that is not empty and has no white space at either end: blank
    lines of the file are skipped and the other lines are trimmed. *)
Theorem response_file_entries_are_trimmed (files : string → option string)
    (arg rspFile text entry : string) :
  PS.match_response_ref arg = Some rspFile → files rspFile = Some text →
  entry ∈ expansion files arg →
  entry ≠ "" ∧ one_line entry ∧ unpadded entry.
Proof.
  intros Hm Hf. unfold expansion. rewrite Hm, Hf.
  intros [Hin Hne]%list_elem_of_In%filter_In.
  apply in_map_iff in Hin as (line & <- & Hline). split_and!.
  - intros Heq. rewrite Heq in Hne. done.
  - apply one_line_trim.
    pose proof (read_lines_are_lines text "" one_line_empty) as Hall.
    rewrite Forall_forall in Hall. apply Hall. by apply list_elem_of_In.
  - apply trim_unpadded.
Qed.

Lemma switch_eq_lower (command clause : string) :
  Str.lower_string clause = clause →
  PS.switch_eq (Some command) clause
  = String.eqb (Str.lower_string command) clause.
Proof. intros H. unfold PS.switch_eq. by rewrite H. Qed.

(** X16. The three subcommands are recognised in any mix of upper and lower
    case, and they ignore every argument after them. *)
Theorem subcommands_ignore_case_and_arguments (files1 files2 : string → option string)
    (command subcommand : string) (more : list string) (st : state) :
  subcommand ∈ ["clean"; "merge"; "merge-phase-2"] →
  Str.lower_string command = subcommand →
  run (ar_merge files1 (command :: more)) st = run (ar_merge files2 [subcommand]) st.
Proof.
  intros Hsub Hlower. unfold ArMerge.ar_merge. rewrite !index_0.
  rewrite !(switch_eq_lower command) by done. rewrite Hlower.
  rewrite !elem_of_cons, elem_of_nil in Hsub.
  destruct Hsub as [-> | [-> | [-> | []]]]; reflexivity.
Qed.

End KeysAndExpansion.

(** ** The toolchain resolver and the flag loop *)

Section MoreToolchain.

Import Toolchain Spec.

Lemma starts_with_spec (p s : string) :
  Str.starts_with p s = true ↔ ∃ rest, s = p +:+ rest.
Proof.
  revert s. induction p as [|a p IH]; intros s.
  - split; [intros _; by exists s | by destruct s].
  - destruct s as [|b s]; cbn [Str.starts_with].
    + split; [done | by intros [rest Hrest]].
    + destruct (Ascii.eqb_spec a b) as [-> | Hab].
      * rewrite IH. split; intros [rest Hrest]; exists rest.
        -- by rewrite append_cons, <- Hrest.
        -- rewrite append_cons in Hrest. by injection Hrest.
      * split; [done |]. intros [rest Hrest]. rewrite append_cons in Hrest.
        injection Hrest as -> _. done.
Qed.

Lemma contains_spec (p s : string) :
  Str.contains p s = true ↔ ∃ before after, s = before +:+ p +:+ after.
Proof.
  induction s as [|c s IH]; cbn [Str.contains].
  - destruct (Str.starts_with p "") eqn:Hp.
    + split; [intros _ | done]. apply starts_with_spec in Hp as [rest Hrest].
      by exists "", rest.
    + split; [done |]. intros (before & after & Heq).
      destruct before as [|b before]; [| by rewrite append_cons in Heq].
      rewrite append_empty_l in Heq.
      assert (Str.starts_with p "" = true) by (apply starts_with_spec; by exists after).
      congruence.
  - destruct (Str.starts_with p (String c s)) eqn:Hp.
    + split; [intros _ | done]. apply starts_with_spec in Hp as [rest Hrest].
      by exists "", rest.
    + rewrite IH. split.
      * intros (before & after & ->). exists (String c before), after.
        by rewrite append_cons.
      * intros (before & after & Heq). destruct before as [|b before].
        -- rewrite append_empty_l in Heq.
           assert (Str.starts_with p (String c s) = true)
             by (apply starts_with_spec; by exists after).
           congruence.
        -- rewrite append_cons in Heq. injection Heq as _ ->. by exists before, after.
Qed.

(** X17. A process counts as run from an application bundle exactly when
    [.app/] occurs somewhere in its path, at whatever depth. *)
Theorem bundle_marker_anywhere (e : env) :
  is_app_bundle e = true ↔ ∃ before after, process_path e = before +:+ ".app/" +:+ after.
Proof. apply contains_spec. Qed.

(** X18. The rule for bundles extends the earlier test on [HOME]: a path
    the earlier test skips is rejected by the rule in every process;
    outside a bundle the rule rejects those paths and no other, and in a
    bundle it rejects every path under [/Users/]. Paths that do not start
    with [/Users/] are left to the probe by both. *)
Theorem bundle_rule_extends_home_test (e : env) (path : string) :
  (other_users_path e path = true → users_path_rule e path = Some false)
  ∧ (is_app_bundle e = false →
     (users_path_rule e path = Some false ↔ other_users_path e path = true))
  ∧ (is_app_bundle e = true →
     (users_path_rule e path = Some false ↔ Str.starts_with "/Users/" path = true))
  ∧ (Str.starts_with "/Users/" path = false →
     users_path_rule e path = None ∧ other_users_path e path = false).
Proof.
  unfold users_path_rule, other_users_path.
  destruct (Str.starts_with "/Users/" path), (is_app_bundle e), (under_home e path);
    cbn; split_and!; try done; try (intros _; split; done); by intros _.
Qed.

(** X19. The test on [HOME] is a test of string prefixes: outside a bundle
    every path under [/Users/] that begins with the characters of [HOME] is
    let through to the probe, also one in a directory whose name merely
    begins like the user's; with [HOME] unset every path under [/Users/] is
    rejected. *)
Theorem home_test_is_a_string_prefix (e : env) (path : string) :
  is_app_bundle e = false → Str.starts_with "/Users/" path = true →
  match HOME e with
  | Some home => ∀ rest, path = home +:+ rest → users_path_rule e path = Some true
  | None => users_path_rule e path = Some false
  end.
Proof.
  intros Hb Hp. unfold users_path_rule, under_home. rewrite Hp, Hb.
  destruct (HOME e) as [home|]; [| done].
  intros rest ->. f_equal. apply starts_with_spec. by exists rest.
Qed.

(** X20. The bundled compiler wins: when it is there, [find_clang] returns
    it after that one probe, and no other path is touched. *)
Theorem bundled_compiler_found_first (e : env) :
  fs e (installed_path e) = Present →
  find_clang e = (Some (installed_path e), [installed_path e]).
Proof.
  intros Hfs. unfold find_clang, exists_no_error. by rewrite Hfs.
Qed.

Lemma getlines_no_space (s cur rest : string) :
  Str.has_char " "%char s = false →
  getlines " "%char cur (s +:+ rest) = getlines " "%char (cur +:+ s) rest.
Proof.
  revert cur. induction s as [|c s IH]; intros cur Hs.
  - by rewrite append_empty_r.
  - cbn [Str.has_char] in Hs. rewrite append_cons. cbn [getlines].
    destruct (Ascii.eqb c " "%char); [done |].
    rewrite IH by done. by rewrite append_char_assoc.
Qed.

(** X21. Flags that are not empty and hold no space, joined by single
    spaces as the build writes them, are the flags the loop finds. *)
Theorem joined_flags_are_found (flags : list string) :
  Forall (λ flag, Str.is_empty flag = false ∧ Str.has_char " "%char flag = false) flags →
  getlines " "%char "" (Str.join " " flags) = flags.
Proof.
  induction flags as [|x flags IH]; intros Hall; [done |].
  apply Forall_cons in Hall as [[Hne Hx] Hall].
  destruct flags as [|y flags].
  - cbn [Str.join]. rewrite <- (append_empty_r x) at 1.
    rewrite getlines_no_space by done.
    cbn [getlines]. rewrite append_empty_l. by rewrite Hne.
  - change (Str.join " " (x :: y :: flags)) with (x +:+ " " +:+ Str.join " " (y :: flags)).
    rewrite getlines_no_space by done.
    rewrite (append_cons " "%char ""), !append_empty_l. cbn [getlines Ascii.eqb].
    change (Ascii.eqb " "%char " "%char) with true. cbv iota.
    f_equal. by apply IH.
Qed.

Lemma filter_existing_loop (e : env) (flags args seen : list string) :
  fold_left (filter_step (exists_no_error e)) flags (args, seen)
  = (args ++ List.filter (retained (exists_no_error e)) flags,
     seen ++ (Str.substr_from 2 <$> List.filter (Str.starts_with "-I") flags)).
Proof.
  revert args seen. induction flags as [|flag flags IH]; intros args seen;
    cbn [fold_left List.filter fmap list_fmap].
  - by rewrite !app_nil_r.
  - unfold retained at 1. unfold filter_step at 2.
    destruct (Str.starts_with "-I" flag).
    + unfold exists_no_error at 2 3.
      destruct (fs e (Str.substr_from 2 flag)); cbn [negb fst]; rewrite IH; csimpl;
        by rewrite <- ?app_assoc.
    + rewrite IH. by rewrite <- app_assoc.
Qed.

(** X22. The loop as quoted probes one path for every include flag, in the
    order of the flags, and none for any other flag; it appends the other
    flags and the include flags whose path is there and can be examined, so
    no include flag it keeps names a missing or unreadable directory. *)
Theorem quoted_loop_probes_include_paths (e : env) (args : list string) :
  let found := getlines " "%char "" (JANK_JIT_FLAGS e) in
  ∃ kept,
    filter_existing_flags e args
    = (args ++ kept, Str.substr_from 2 <$> List.filter (Str.starts_with "-I") found)
    ∧ kept `sublist_of` found
    ∧ Forall (λ flag, Str.starts_with "-I" flag = true →
                      fs e (Str.substr_from 2 flag) = Present) kept
    ∧ Forall (λ flag, Str.starts_with "-I" flag = false → flag ∈ kept) found.
Proof.
  cbv zeta. exists (List.filter (retained (exists_no_error e))
                      (getlines " "%char "" (JANK_JIT_FLAGS e))).
  split_and!.
  - unfold filter_existing_flags, filter_flags. by rewrite filter_existing_loop.
  - apply filter_sublist.
  - apply Forall_forall. intros flag [_ Hkept]%list_elem_of_In%filter_In Hinc.
    unfold retained in Hkept. rewrite Hinc in Hkept.
    by apply exists_no_error_true.
  - apply Forall_forall. intros flag Hflag Hinc.
    apply list_elem_of_In, filter_In. split; [by apply list_elem_of_In |].
    unfold retained. by rewrite Hinc.
Qed.

End MoreToolchain.

(** ** Library names *)

Section LibraryNames.

(** X23. The file name the JIT derives for a library is the former name
    with [lib] put before it, so for no library is it the name looked up
    before; different libraries get different file names. *)
Theorem shared_lib_name_has_lib_prefix (lib other : string) :
  Jit.default_shared_lib_name lib = "lib" +:+ Jit.former_shared_lib_name lib
  ∧ Jit.default_shared_lib_name lib ≠ Jit.former_shared_lib_name lib
  ∧ (Jit.default_shared_lib_name lib = Jit.default_shared_lib_name other → lib = other).
Proof.
  unfold Jit.default_shared_lib_name, Jit.former_shared_lib_name. split_and!.
  - done.
  - intros H. apply (f_equal String.length) in H.
    rewrite !length_append in H. simpl in H. lia.
  - intros H. apply (inj (String.app "lib")) in H. by apply append_suffix_inj in H.
Qed.

End LibraryNames.

(** ** The further properties on concrete builds *)

Section MoreConcrete.

Import ArMerge Spec Toolchain Scenario.


Lemma record_twice_is_record_once_witness :
  passes_through "qc" = true
  ∧ ∃ st1 st2,
      ar_merge_all build by_code [(one_rsp, ["qc"; "lib/libx.a"; "@objs.rsp"])] initial
      = Some st1
      ∧ ar_merge_all build by_code [(one_rsp, ["qc"; "lib/libx.a"; "@objs.rsp"]);
                                    (one_rsp, ["qc"; "lib/libx.a"; "@objs.rsp"])] initial
        = Some st2
      ∧ cache st2 = cache st1.
Proof.
  split; [reflexivity |].
  exact (record_twice_is_record_once build by_code one_rsp "qc" "lib/libx.a"
           ["@objs.rsp"] initial eq_refl).
Defined.

Lemma records_of_distinct_keys_commute_witness :
  (passes_through "qc" = true ∧ sanitized_key "A" ≠ sanitized_key "B")
  ∧ ∃ st12 st21,
      ar_merge_all build by_code [(no_files, ["qc"; "A"; "a1.o"; "a2.o"]);
                                  (no_files, ["qc"; "B"; "b1.o"])] initial = Some st12
      ∧ ar_merge_all build by_code [(no_files, ["qc"; "B"; "b1.o"]);
                                    (no_files, ["qc"; "A"; "a1.o"; "a2.o"])] initial
        = Some st21
      ∧ cache st12 = cache st21.
Proof.
  split; [by split |].
  exact (records_of_distinct_keys_commute build by_code no_files no_files "qc" "qc"
           "A" "B" ["a1.o"; "a2.o"] ["b1.o"] initial eq_refl eq_refl
           ltac:(discriminate)).
Defined.

Lemma recorded_objects_reach_the_merge_witness :
  (record_invocation ["qc"; "lib/libx.a"; "@objs.rsp"; "main.o"] = true
   ∧ (2 ≤ length (object_list (one_rsp, ["qc"; "lib/libx.a"; "@objs.rsp"; "main.o"])))%nat)
  ∧ ∃ (st' : state) (members : list string),
      ar_merge_all build by_code
        [(one_rsp, ["qc"; "lib/libx.a"; "@objs.rsp"; "main.o"]); (no_files, ["merge"])]
        initial = Some st'
      ∧ archives st' !! merge_output build = Some members
      ∧ Forall (λ object, object ∈ members) ["gc.o"; "rt.o"; "main.o"].
Proof.
  assert (2 ≤ length (object_list (one_rsp, ["qc"; "lib/libx.a"; "@objs.rsp"; "main.o"])))%nat
    as Hlen by (vm_compute; lia).
  split; [by split |].
  exact (recorded_objects_reach_the_merge build by_code
           (one_rsp, ["qc"; "lib/libx.a"; "@objs.rsp"; "main.o"]) no_files initial
           eq_refl Hlen).
Defined.

Lemma record_read_back_witness :
  Forall one_line ["a.o"; ""; "b.o"]
  ∧ List.filter PS.truthy (Get_Content (record_text ["a.o"; ""; "b.o"])) = ["a.o"; "b.o"].
Proof.
  assert (Forall one_line ["a.o"; ""; "b.o"]) as H by (repeat constructor).
  split; [exact H |]. exact (record_read_back ["a.o"; ""; "b.o"] H).
Defined.

Lemma record_without_objects_merges_characters_witness :
  (passes_through "qc" = true ∧ object_path "libx.a" = true
   ∧ Str.starts_with "@" "libx.a" = false ∧ default empty_dir (cache initial) = ∅)
  ∧ ∃ st', ar_merge_all build by_code [(no_files, ["qc"; "libx.a"]); (no_files, ["merge"])]
             initial = Some st'
           ∧ cache st' = Some {[ "libx.a.list" := record_text ["libx.a"] ]}
           ∧ archives st' !! merge_output build = Some ["l"; "i"; "b"; "x"; "."; "a"].
Proof.
  split; [by repeat split |].
  exact (record_without_objects_merges_characters build by_code no_files no_files
           "qc" "libx.a" initial eq_refl eq_refl eq_refl eq_refl).
Defined.


Lemma plain_arguments_expand_to_themselves_witness :
  Forall (λ arg, Str.starts_with "@" arg = false) ["a1.o"; "dir/a2.o"]
  ∧ expand_object_args one_rsp ["a1.o"; "dir/a2.o"] = ["a1.o"; "dir/a2.o"].
Proof.
  assert (Forall (λ arg, Str.starts_with "@" arg = false) ["a1.o"; "dir/a2.o"]) as H
    by (repeat constructor).
  split; [exact H |]. exact (plain_arguments_expand_to_themselves one_rsp _ H).
Defined.

(** The line [rt.o ] of the response file, with its closing space. *)
Lemma response_file_entries_are_trimmed_witness :
  (PS.match_response_ref "@objs.rsp" = Some "objs.rsp"
   ∧ is_Some (one_rsp "objs.rsp")
   ∧ "rt.o" ∈ expansion one_rsp "@objs.rsp")
  ∧ "rt.o" ≠ "" ∧ one_line "rt.o" ∧ unpadded "rt.o".
Proof.
  assert ("rt.o" ∈ expansion one_rsp "@objs.rsp") as Hin
    by (vm_compute; apply list_elem_of_further, list_elem_of_here).
  split; [split_and!; [reflexivity | by eexists | exact Hin] |].
  exact (response_file_entries_are_trimmed one_rsp "@objs.rsp" "objs.rsp" _ "rt.o"
           eq_refl eq_refl Hin).
Defined.

Lemma subcommands_ignore_case_and_arguments_witness :
  ("merge" ∈ ["clean"; "merge"; "merge-phase-2"] ∧ Str.lower_string "Merge" = "merge")
  ∧ run (ar_merge build by_code one_rsp ["Merge"; "libx.a"; "a.o"]) initial
    = run (ar_merge build by_code no_files ["merge"]) initial.
Proof.
  assert ("merge" ∈ ["clean"; "merge"; "merge-phase-2"]) as H
    by (apply list_elem_of_further, list_elem_of_here).
  split; [by split |].
  exact (subcommands_ignore_case_and_arguments build by_code one_rsp no_files
           "Merge" "merge" ["libx.a"; "a.o"] initial H eq_refl).
Defined.

(** With [HOME] at [/Users/me], a path in [/Users/melissa]. *)
Lemma home_test_is_a_string_prefix_witness :
  (is_app_bundle development = false
   ∧ Str.starts_with "/Users/" "/Users/melissa/include" = true)
  ∧ users_path_rule development "/Users/melissa/include" = Some true.
Proof.
  split; [by split |].
  exact (home_test_is_a_string_prefix development "/Users/melissa/include"
           eq_refl eq_refl "lissa/include" eq_refl).
Defined.

Lemma bundled_compiler_found_first_witness :
  fs bundled (installed_path bundled) = Present
  ∧ find_clang bundled
    = (Some "/Users/me/Applications/Jank.app/Contents/Resources/bin/clang++",
       ["/Users/me/Applications/Jank.app/Contents/Resources/bin/clang++"]).
Proof.
  split; [reflexivity |]. exact (bundled_compiler_found_first bundled eq_refl).
Defined.

Lemma joined_flags_are_found_witness :
  Forall (λ flag, Str.is_empty flag = false ∧ Str.has_char " "%char flag = false)
         ["-O2"; "-I/usr/include"; "-g"]
  ∧ getlines " "%char "" "-O2 -I/usr/include -g" = ["-O2"; "-I/usr/include"; "-g"].
Proof.
  assert (Forall (λ flag, Str.is_empty flag = false ∧ Str.has_char " "%char flag = false)
                 ["-O2"; "-I/usr/include"; "-g"]) as H by (repeat constructor).
  split; [exact H |]. exact (joined_flags_are_found _ H).
Defined.

End MoreConcrete.

(** ** The slice idiom *)

Section SliceIdiom.

(** X24. The idiom [$a[1..($a.Length - 1)]] of lines 15 and 58 drops the
    first element of an array of two or more, and it returns an array of
    one element, like an empty one, as it is. *)
Theorem rest_drops_first_of_two_or_more {A : Type} (a : list A) :
  PS.rest a = if decide (2 ≤ length a)%nat then drop 1 a else a.
Proof.
  destruct a as [|x [|y a]]; [done | done |].
  rewrite rest_cons_cons. cbn [length]. by rewrite decide_True by lia.
Qed.

End SliceIdiom.
